(** * PennyLane-Lightning: math kernel utilities and error reporting

    A shallow embedding of [pennylane_lightning/src/util/Util.hpp] and
    [pennylane_lightning/src/util/Error.hpp], and the properties of the
    kernels proved over it.

    Conventions of the embedding.
    - [size_t] is a 64-bit unsigned integer: a [Z] in [0, 2^64) whose
      additions and multiplications wrap ([SizeT.add], [SizeT.mul]).
    - A C++ call either returns, throws, or has undefined behaviour (an
      access outside a buffer, a division by zero); [outcome] records which.
    - A buffer reached through a [const] pointer is a list that is only read;
      the output buffer is threaded through the kernel as state.  A null
      output pointer is [None].
    - The kernels are those of the build without the accelerated library
      ([USE_CBLAS] is 0, as [ENABLE_BLAS] is [OFF] unless the build asks for
      it); the [cblas] routines of the other build are not part of the
      repository.
    - The scalar type [T] of [std::complex<T>] is abstract: the kernels are
      written over its operations, and the algebraic properties are proved
      when these operations form a commutative ring (exact arithmetic).
      Rounding of [float] and [double] is not part of the embedding.
    - Worker threads touch the shared state only in one atomic step each (the
      locked [result += s] of the inner product) or on disjoint rows (the
      matrix products), so a run of the workers is determined by the order in
      which they take their step: a schedule, a permutation of the worker
      indices.  Properties are proved for every schedule. *)

From Stdlib Require Import ZArith List Bool Lia String Ascii Permutation.
From Stdlib Require Import DecimalString.
From Stdlib Require Import Ring Ring_theory ZArithRing.
Import ListNotations.
Local Open Scope Z_scope.

(** ** Outcomes of a call *)

Inductive exception : Type :=
| invalid_argument (what_arg : string)
| LightningException (err_msg : string).

Inductive outcome (A : Type) : Type :=
| Ret (a : A)
| Throw (e : exception)
| Undefined
| OutOfFuel.

Arguments Ret {A} a.
Arguments Throw {A} e.
Arguments Undefined {A}.
Arguments OutOfFuel {A}.

Definition bind {A B : Type} (c : outcome A) (k : A -> outcome B) : outcome B :=
  match c with
  | Ret a => k a
  | Throw e => Throw e
  | Undefined => Undefined
  | OutOfFuel => OutOfFuel
  end.

Notation "x <- c ;; k" := (bind c (fun x => k))
  (at level 61, c at next level, right associativity).

(** ** [size_t] *)

Module SizeT.

Definition modulus : Z := 2 ^ 64.

Definition wrap (z : Z) : Z := z mod modulus.

Definition add (a b : Z) : Z := wrap (a + b).
Definition sub (a b : Z) : Z := wrap (a - b).
Definition mul (a b : Z) : Z := wrap (a * b).

Definition in_range (z : Z) : Prop := 0 <= z < modulus.

End SizeT.

(** ** Loops and buffers *)

(** [for (i = lo; i < hi; ++i) body]: the body runs [hi - lo] times (not at
    all when [hi <= lo]); [++i] cannot wrap since [i < hi]. *)
Fixpoint for_count {St : Type} (body : Z -> St -> outcome St)
  (i : Z) (count : nat) (s : St) : outcome St :=
  match count with
  | O => Ret s
  | S count' => s' <- body i s ;; for_count body (i + 1) count' s'
  end.

Definition for_ {St : Type} (lo hi : Z) (body : Z -> St -> outcome St) (s : St)
  : outcome St :=
  for_count body lo (Z.to_nat (hi - lo)) s.

(** [p[i]] for a pointer [p] to a buffer: undefined outside the buffer. *)
Definition load {A : Type} (p : list A) (i : Z) : outcome A :=
  if (0 <=? i) && (i <? Z.of_nat (List.length p)) then
    match nth_error p (Z.to_nat i) with
    | Some x => Ret x
    | None => Undefined
    end
  else Undefined.

Fixpoint update {A : Type} (p : list A) (i : nat) (x : A) : list A :=
  match p, i with
  | [], _ => []
  | _ :: p', O => x :: p'
  | y :: p', S i' => y :: update p' i' x
  end.

(** [p[i] = x]. *)
Definition store {A : Type} (p : list A) (i : Z) (x : A) : outcome (list A) :=
  if (0 <=? i) && (i <? Z.of_nat (List.length p)) then Ret (update p (Z.to_nat i) x)
  else Undefined.

(** Total reading of a buffer, used in statements. *)
Definition Znth {A : Type} (p : list A) (i : Z) (d : A) : A :=
  nth (Z.to_nat i) p d.

(** The indices [lo, lo + 1, ..., lo + count - 1]. *)
Fixpoint Zseq (lo : Z) (count : nat) : list Z :=
  match count with
  | O => []
  | S count' => lo :: Zseq (lo + 1) count'
  end.

Definition range (lo hi : Z) : list Z := Zseq lo (Z.to_nat (hi - lo)).

(** ** [partition] *)

(** [partition(n, data_size)].  The loop state is the vector [bnd] and [n1];
    [data_size / n] with [n == 0] is a division by zero. *)
Definition partition (n data_size : Z) : outcome (list Z) :=
  if n =? 1 then Ret [0; data_size]
  else if n =? 0 then Undefined
  else
    let d := data_size / n in
    st <- for_ 0 n
            (fun i '(bnd, n1) =>
               let n2 := SizeT.add n1 d in
               let n2 := if i =? n - 1 then data_size else n2 in
               Ret (bnd ++ [n2], n2))
            ([0], 0) ;;
    Ret (fst st).

(** Workers started with [std::thread] and joined: each worker takes the
    shared state once, in the order [sched] of their indices. *)
Fixpoint run_threads {St : Type} (worker : Z -> St -> outcome St)
  (sched : list Z) (s : St) : outcome St :=
  match sched with
  | [] => Ret s
  | i :: sched' => s' <- worker i s ;; run_threads worker sched' s'
  end.

(** ** Scalars and [std::complex<T>] *)

Class Scalar (T : Type) : Type := {
  zero : T;
  one : T;
  add : T -> T -> T;
  mul : T -> T -> T;
  sub : T -> T -> T;
  opp : T -> T
}.

Declare Scope scalar_scope.
Delimit Scope scalar_scope with T.
Infix "+" := add : scalar_scope.
Infix "*" := mul : scalar_scope.
Infix "-" := sub : scalar_scope.
Notation "- x" := (opp x) : scalar_scope.

Record complex (T : Type) : Type := Complex { real : T; imag : T }.

Arguments Complex {T} real imag.
Arguments real {T} c.
Arguments imag {T} c.

#[export] Instance Z_Scalar : Scalar Z := {
  zero := 0; one := 1; add := Z.add; mul := Z.mul; sub := Z.sub; opp := Z.opp
}.

Section Kernels.

Context {T : Type} `{Scalar T}.

Local Abbreviation C := (complex T).

(** [std::complex<T>{0, 0}], [operator+], [operator*] and [std::conj]. *)
Definition C0 : C := Complex zero zero.

Definition Cadd (a b : C) : C :=
  Complex (real a + real b)%T (imag a + imag b)%T.

Definition Cmul (a b : C) : C :=
  Complex (real a * real b - imag a * imag b)%T
          (real a * imag b + imag a * real b)%T.

Definition conj (a : C) : C := Complex (real a) (- imag a)%T.

(** [std::norm]: the squared magnitude. *)
Definition norm (a : C) : T := (real a * real a + imag a * imag a)%T.

Definition ConstMult (a b : C) : C :=
  Complex (real a * real b - imag a * imag b)%T
          (real a * imag b + imag a * real b)%T.

Definition ConstMultConj (a b : C) : C :=
  Complex (real a * real b + imag a * imag b)%T
          (- imag a * real b + real a * imag b)%T.

Definition ConstSum (a b : C) : C := Cadd a b.

(** *** Inner products (build without the accelerated library) *)

Definition DOTU_STD_CROSSOVER : Z := Z.shiftl 1 20.
Definition DOTC_STD_CROSSOVER : Z := Z.shiftl 1 20.

(** [_innerProd]: the local sum [s] over [l, r), then the locked
    [result += s]. *)
Definition _innerProd (v1 v2 : list C) (result : C) (l r : Z) : outcome C :=
  s <- for_ l r
         (fun i s => x <- load v1 i ;; y <- load v2 i ;;
                     Ret (Cadd s (Cmul x y)))
         C0 ;;
  Ret (Cadd result s).

Definition _innerProdC (v1 v2 : list C) (result : C) (l r : Z) : outcome C :=
  s <- for_ l r
         (fun i s => x <- load v1 i ;; y <- load v2 i ;;
                     Ret (Cadd s (Cmul (conj x) y)))
         C0 ;;
  Ret (Cadd result s).

(** [std::inner_product(v1, v1 + data_size, v2, init, op1, op2)]. *)
Definition std_inner_product (v1 v2 : list C) (data_size : Z) (init : C)
  (op1 op2 : C -> C -> C) : outcome C :=
  for_ 0 data_size
    (fun i acc => x <- load v1 i ;; y <- load v2 i ;; Ret (op1 acc (op2 x y)))
    init.

Definition innerProd (v1 v2 : list C) (data_size nthreads : Z)
  (sched : list Z) : outcome C :=
  let result := C0 in
  if data_size >? DOTU_STD_CROSSOVER then
    std_inner_product v1 v2 data_size C0 ConstSum ConstMult
  else
    bnd <- partition nthreads data_size ;;
    run_threads
      (fun i result =>
         l <- load bnd i ;; r <- load bnd (i + 1) ;;
         _innerProd v1 v2 result l r)
      sched result.

Definition innerProdC (v1 v2 : list C) (data_size nthreads : Z)
  (sched : list Z) : outcome C :=
  let result := C0 in
  if data_size >? DOTC_STD_CROSSOVER then
    std_inner_product v1 v2 data_size C0 ConstSum ConstMultConj
  else
    bnd <- partition nthreads data_size ;;
    run_threads
      (fun i result =>
         l <- load bnd i ;; r <- load bnd (i + 1) ;;
         _innerProdC v1 v2 result l r)
      sched result.

(** The overloads on [std::vector]: [data_size] is [v1.size()] and
    [nthreads] takes its default, 2. *)
Definition innerProd_vector (v1 v2 : list C) (sched : list Z) : outcome C :=
  innerProd v1 v2 (Z.of_nat (List.length v1)) 2 sched.

Definition innerProdC_vector (v1 v2 : list C) (sched : list Z) : outcome C :=
  innerProdC v1 v2 (Z.of_nat (List.length v1)) 2 sched.

(** *** Matrix-vector product *)

Definition _matrixVecProd (mat v_in v_out : list C) (m n left right : Z)
  (transpose : bool) : outcome (list C) :=
  if transpose then
    for_ left right
      (fun r v_out =>
         for_ 0 n
           (fun c v_out =>
              a <- load mat (SizeT.add (SizeT.mul c m) r) ;;
              x <- load v_in c ;;
              y <- load v_out r ;;
              store v_out r (Cadd y (Cmul a x)))
           v_out)
      v_out
  else
    for_ left right
      (fun r v_out =>
         for_ 0 n
           (fun c v_out =>
              a <- load mat (SizeT.add (SizeT.mul r n) c) ;;
              x <- load v_in c ;;
              y <- load v_out r ;;
              store v_out r (Cadd y (Cmul a x)))
           v_out)
      v_out.

(** [matrixVecProd]; [v_out] is [None] for a null pointer. *)
Definition matrixVecProd (mat v_in : list C) (v_out : option (list C))
  (m n nthreads : Z) (transpose : bool) (sched : list Z)
  : outcome (option (list C)) :=
  match v_out with
  | None => Ret None
  | Some out =>
      bnd <- partition nthreads m ;;
      out' <- run_threads
                (fun i out =>
                   l <- load bnd i ;; r <- load bnd (i + 1) ;;
                   _matrixVecProd mat v_in out m n l r transpose)
                sched out ;;
      Ret (Some out')
  end.

(** *** Transpose *)

Definition BLOCK_THRESHOLD : Z := 16.

(** The loops of the last branch of [CFTranspose]. *)
Definition transpose_block (mat mat_t : list C) (m n m1 m2 n1 n2 : Z)
  : outcome (list C) :=
  for_ m1 m2
    (fun r mat_t =>
       for_ n1 n2
         (fun s mat_t =>
            x <- load mat (SizeT.add (SizeT.mul r n) s) ;;
            store mat_t (SizeT.add (SizeT.mul s m) r) x)
         mat_t)
    mat_t.

(** [CFTranspose]: [fuel] bounds the number of passes through the label
    [tail], whether reached by a call or by [goto]. *)
Fixpoint CFTranspose (fuel : nat) (mat mat_t : list C)
  (m n m1 m2 n1 n2 : Z) : outcome (list C) :=
  match fuel with
  | O => OutOfFuel
  | S fuel' =>
      let r1 := SizeT.sub m2 m1 in
      let s1 := SizeT.sub n2 n1 in
      if (r1 >=? s1) && (r1 >? BLOCK_THRESHOLD) then
        let r2 := SizeT.add m1 m2 / 2 in
        mat_t' <- CFTranspose fuel' mat mat_t m n m1 r2 n1 n2 ;;
        CFTranspose fuel' mat mat_t' m n r2 m2 n1 n2
      else if s1 >? BLOCK_THRESHOLD then
        let s2 := SizeT.add n1 n2 / 2 in
        mat_t' <- CFTranspose fuel' mat mat_t m n m1 m2 n1 s2 ;;
        CFTranspose fuel' mat mat_t' m n m1 m2 s2 n2
      else transpose_block mat mat_t m n m1 m2 n1 n2
  end.

Definition Transpose (fuel : nat) (mat mat_t : list C) (m n : Z)
  : outcome (list C) :=
  CFTranspose fuel mat mat_t m n 0 m 0 n.

(** The naive double loop the blocked routine is compared with. *)
Definition naive_transpose (mat mat_t : list C) (m n : Z) : outcome (list C) :=
  for_ 0 m
    (fun r mat_t =>
       for_ 0 n
         (fun s mat_t =>
            x <- load mat (r * n + s) ;;
            store mat_t (s * m + r) x)
         mat_t)
    mat_t.

(** *** Matrix-matrix product *)

Definition _matrixMatProd_tp (m_left m_right m_out : list C)
  (m n k left right : Z) : outcome (list C) :=
  for_ left right
    (fun r m_out =>
       for_ 0 n
         (fun c m_out =>
            for_ 0 k
              (fun b m_out =>
                 x <- load m_left (SizeT.add (SizeT.mul r k) b) ;;
                 y <- load m_right (SizeT.add (SizeT.mul c n) b) ;;
                 z <- load m_out (SizeT.add (SizeT.mul r n) c) ;;
                 store m_out (SizeT.add (SizeT.mul r n) c)
                       (Cadd z (Cmul x y)))
              m_out)
         m_out)
    m_out.

Definition _matrixMatProd (m_left m_right m_out : list C)
  (m n k left right : Z) : outcome (list C) :=
  for_ left right
    (fun r m_out =>
       for_ 0 n
         (fun c m_out =>
            for_ 0 k
              (fun b m_out =>
                 x <- load m_left (SizeT.add (SizeT.mul r k) b) ;;
                 y <- load m_right (SizeT.add (SizeT.mul b n) c) ;;
                 z <- load m_out (SizeT.add (SizeT.mul r n) c) ;;
                 store m_out (SizeT.add (SizeT.mul r n) c)
                       (Cadd z (Cmul x y)))
              m_out)
         m_out)
    m_out.

(** [matrixMatProd]; [m_out] is [None] for a null pointer. *)
Definition matrixMatProd (m_left m_right : list C) (m_out : option (list C))
  (m n k nthreads : Z) (transpose : bool) (sched : list Z)
  : outcome (option (list C)) :=
  match m_out with
  | None => Ret None
  | Some out =>
      bnd <- partition nthreads m ;;
      out' <- (if transpose then
                 run_threads
                   (fun i out =>
                      l <- load bnd i ;; r <- load bnd (i + 1) ;;
                      _matrixMatProd m_left m_right out m n k l r)
                   sched out
               else
                 run_threads
                   (fun i out =>
                      l <- load bnd i ;; r <- load bnd (i + 1) ;;
                      _matrixMatProd_tp m_left m_right out m n k l r)
                   sched out) ;;
      Ret (Some out')
  end.

End Kernels.

(** ** [log2] and [dimSize] *)

(** [static_cast<size_t>(std::log2(value))].  The logarithm is taken in
    [double]; it is exact at the powers of two, the only values [dimSize]
    passes when it returns. *)
Definition log2 (value : Z) : Z := Z.log2 value.

(** [dimSize]; only [data.size()] is inspected.  [s_sqrt] is
    [floor(sqrt(s))]: the root is taken in [double], and [s_sqrt] is used
    only once [s] is known to be a power of two, which a [double] holds
    exactly. *)
Definition dimSize {A : Type} (data : list A) : outcome Z :=
  let s := Z.of_nat (List.length data) in
  let s_sqrt := Z.sqrt s in
  if s <? 4 then
    Throw (invalid_argument "The dataset must be at least 2x2")
  else if (s =? 0) || negb (Z.land s (SizeT.sub s 1) =? 0) then
    Throw (invalid_argument "The dataset must be a power of 2")
  else if negb (SizeT.mul s_sqrt s_sqrt =? s) then
    Throw (invalid_argument "The dataset must be a perfect square")
  else Ret (log2 s_sqrt).

(** ** [LightningException] and [Abort] *)

(** [what()] of the exception. *)
Definition what (e : exception) : string :=
  match e with
  | invalid_argument what_arg => what_arg
  | LightningException err_msg => err_msg
  end.

(** [operator<<] on an [int]: its decimal digits, after a minus sign when
    negative. *)
Definition string_of_int (line : Z) : string :=
  DecimalString.NilZero.string_of_int (Z.to_int line).

(** [Abort] is [void] and has no [return]: every call ends in the [throw]. *)
Definition Abort (message file_name : string) (line : Z)
  (function_name : string) : outcome unit :=
  let err_msg :=
    ("[" ++ file_name ++ "][Line:" ++ string_of_int line
       ++ "][Method:" ++ function_name
       ++ "]: Error in PennyLane Lightning: " ++ message)%string in
  Throw (LightningException err_msg).

(** [needle] occurs in [hay]. *)
Definition contains (hay needle : string) : Prop :=
  exists before after : string, hay = (before ++ needle ++ after)%string.

(** ** Reference quantities of the statements *)

(** Index [j] of the transposed buffer holds an entry of the block of rows
    [m1, m2) and columns [n1, n2) of the [m * n] matrix: [j = s * m + r]
    with [r] in [m1, m2) and [s] in [n1, n2). *)
Definition in_block (m m1 m2 n1 n2 j : Z) : bool :=
  (m1 <=? j mod m) && (j mod m <? m2) && (n1 <=? j / m) && (j / m <? n2).

(** [out] is [start] with the block written: an index of the block holds
    the entry of [mat] it is the transposed place of, any other index is as
    in [start]. *)
Definition block_written {A : Type} (d : A) (mat : list A) (m n m1 m2 n1 n2 : Z)
  (start out : list A) : Prop :=
  List.length out = List.length start
  /\ forall j, 0 <= j < m * n ->
       Znth out j d
       = if in_block m m1 m2 n1 n2 j
         then Znth mat ((j mod m) * n + j / m) d
         else Znth start j d.

(** The closed form of boundary [i] of [partition n data_size]: chunks of
    [data_size / n] indices, the last boundary being [data_size]. *)
Definition boundary (n data_size i : Z) : Z :=
  if i =? n then data_size else i * (data_size / n).

Section Reference.

Context {T : Type} `{Scalar T}.

Local Abbreviation C := (complex T).

(** The sum of [f i] for [i] from [lo] up to [hi - 1], added in that order
    starting from zero. *)
Definition Csum (f : Z -> C) (lo hi : Z) : C :=
  fold_left (fun acc i => Cadd acc (f i)) (range lo hi) C0.

(** The direct sequential dot product of [v1] and [v2]. *)
Definition dot (v1 v2 : list C) : C :=
  Csum (fun i => Cmul (Znth v1 i C0) (Znth v2 i C0))
       0 (Z.of_nat (List.length v1)).

(** The same with the first operand conjugated. *)
Definition dotC (v1 v2 : list C) : C :=
  Csum (fun i => Cmul (conj (Znth v1 i C0)) (Znth v2 i C0))
       0 (Z.of_nat (List.length v1)).

(** The sum of the squared magnitudes of the entries of [v]. *)
Definition sum_norm (v : list C) : T :=
  fold_left (fun acc z => (acc + norm z)%T) v zero.

(** The sum of the squares of the entries of [v]. *)
Definition sum_squares (v : list C) : C :=
  fold_left (fun acc z => Cadd acc (Cmul z z)) v C0.


(** Row [r] accumulated onto a prior value [a], in the order of the loop:
    [a], then each [mat[r * n + c] * v_in[c]] added for [c = 0, 1, ...]. *)
Definition row_accumulate (mat v_in : list C) (n r : Z) (a : C) : C :=
  fold_left
    (fun acc c => Cadd acc (Cmul (Znth mat (r * n + c) C0) (Znth v_in c C0)))
    (range 0 n) a.

(** [r] lies in the chunk of one of the workers of [sched]. *)
Definition in_chunks (n data_size : Z) (sched : list Z) (r : Z) : bool :=
  existsb (fun i => (boundary n data_size i <=? r)
                    && (r <? boundary n data_size (i + 1))) sched.

(** A cell accumulated onto a prior value [a], in the order of the loop:
    [a], then each [m_left[r * k + b] * m_right[right_index b]] added for
    [b = 0, 1, ...]. *)
Definition cell_accumulate (m_left m_right : list C) (k r : Z)
  (right_index : Z -> Z) (a : C) : C :=
  fold_left
    (fun acc b => Cadd acc (Cmul (Znth m_left (r * k + b) C0)
                                 (Znth m_right (right_index b) C0)))
    (range 0 k) a.

(** Cell [(r, c)] of the matrix product: the sum over [b < k] of
    [m_left[r * k + b] * m_right[b * n + c]]. *)
Definition product_cell (m_left m_right : list C) (n k r c : Z) : C :=
  Csum (fun b => Cmul (Znth m_left (r * k + b) C0)
                      (Znth m_right (b * n + c) C0)) 0 k.

End Reference.

(** ** The rest of [Util.hpp] and [Error.hpp] *)

(** [exp2]: [static_cast<size_t>(1) << n]; a shift by the width of the type
    or more is undefined. *)
Definition exp2 (n : Z) : outcome Z :=
  if n <? 64 then Ret (SizeT.wrap (Z.shiftl 1 n)) else Undefined.

(** A function that starts with an [assert]: the assertion aborts the
    program when it fails, unless [NDEBUG] compiles it out (the release
    build). *)
Inductive asserted (A : Type) : Type :=
| Aborted
| Continued (a : A).

Arguments Aborted {A}.
Arguments Continued {A} a.

Definition maxDecimalForQubit (NDEBUG : bool) (qubitIndex qubits : Z)
  : asserted (outcome Z) :=
  if NDEBUG || (qubitIndex <? qubits) then
    Continued (exp2 (SizeT.sub (SizeT.sub qubits qubitIndex) 1))
  else Aborted.

(** The macros of [Error.hpp]; [file_name], [line] and [function_name] stand
    for [__FILE__], [__LINE__] and [__func__] at the place of use, and
    [expression_text] for the stringified [#expression]. *)
Definition PL_ABORT (message file_name : string) (line : Z)
  (function_name : string) : outcome unit :=
  Abort message file_name line function_name.

Definition PL_ABORT_IF (expression : bool) (message file_name : string)
  (line : Z) (function_name : string) : outcome unit :=
  if expression then PL_ABORT message file_name line function_name
  else Ret tt.

Definition PL_ABORT_IF_NOT (expression : bool) (message file_name : string)
  (line : Z) (function_name : string) : outcome unit :=
  if negb expression then PL_ABORT message file_name line function_name
  else Ret tt.

Definition PL_ASSERT (expression : bool) (expression_text file_name : string)
  (line : Z) (function_name : string) : outcome unit :=
  PL_ABORT_IF_NOT expression ("Assertion failed: " ++ expression_text)%string
    file_name line function_name.

Section Constants.

Context {T : Type} `{Scalar T}.

Local Abbreviation C := (complex T).

(** The overload of [ConstMult] with a real first operand. *)
Definition ConstMult_real (a : T) (b : C) : C :=
  Complex (a * real b)%T (a * imag b)%T.

Definition ONE : C := Complex one zero.
Definition ZERO : C := Complex zero zero.
Definition IMAG : C := Complex zero one.

(** A prior value [a] with the terms [term 0], [term 1], ... up to
    [term (n - 1)] added one after the other. *)
Definition accumulate (term : Z -> C) (n : Z) (a : C) : C :=
  fold_left (fun acc c => Cadd acc (term c)) (range 0 n) a.

End Constants.

(** * Properties *)

(** ** [size_t] arithmetic that does not wrap *)

Lemma wrap_small (z : Z) : SizeT.in_range z -> SizeT.wrap z = z.
Proof. unfold SizeT.in_range, SizeT.wrap. intros Hz. now apply Z.mod_small. Qed.

Lemma add_small (a b : Z) : SizeT.in_range (a + b) -> SizeT.add a b = a + b.
Proof. apply wrap_small. Qed.

Lemma sub_small (a b : Z) : SizeT.in_range (a - b) -> SizeT.sub a b = a - b.
Proof. apply wrap_small. Qed.

Lemma mul_small (a b : Z) : SizeT.in_range (a * b) -> SizeT.mul a b = a * b.
Proof. apply wrap_small. Qed.

Lemma modulus_eq : SizeT.modulus = 18446744073709551616.
Proof. reflexivity. Qed.

(** A row-major index inside an [m * n] buffer is computed without
    wrapping. *)
Lemma index_small (r n c rows : Z) :
  0 <= r < rows -> 0 <= c < n -> rows * n < SizeT.modulus ->
  SizeT.add (SizeT.mul r n) c = r * n + c /\ 0 <= r * n + c < rows * n.
Proof.
  intros Hr Hc Hmn.
  assert (0 <= r * n + c < rows * n) by nia.
  split; [|assumption].
  rewrite mul_small by (unfold SizeT.in_range; nia).
  apply add_small. unfold SizeT.in_range. lia.
Qed.

(** ** Index ranges *)

Lemma Zseq_length (k : nat) : forall lo, List.length (Zseq lo k) = k.
Proof. induction k as [|k IH]; intros lo; simpl; [reflexivity|]. now rewrite IH. Qed.

Lemma Zseq_snoc (k : nat) :
  forall lo, Zseq lo (S k) = Zseq lo k ++ [lo + Z.of_nat k].
Proof.
  induction k as [|k IH]; intros lo.
  - simpl. now rewrite Z.add_0_r.
  - change (Zseq lo (S (S k))) with (lo :: Zseq (lo + 1) (S k)).
    rewrite IH. simpl. do 3 f_equal. lia.
Qed.

Lemma Zseq_app (k1 k2 : nat) :
  forall lo, Zseq lo (k1 + k2) = Zseq lo k1 ++ Zseq (lo + Z.of_nat k1) k2.
Proof.
  induction k1 as [|k1 IH]; intros lo.
  - simpl. now rewrite Z.add_0_r.
  - simpl Nat.add. cbn [Zseq app]. rewrite IH. do 3 f_equal. lia.
Qed.

Lemma Zseq_In (k : nat) :
  forall lo i, In i (Zseq lo k) <-> lo <= i < lo + Z.of_nat k.
Proof.
  induction k as [|k IH]; intros lo i.
  - simpl. lia.
  - cbn [Zseq In]. rewrite IH. lia.
Qed.

Lemma Zseq_nth (k : nat) :
  forall lo (j : nat) d, (j < k)%nat -> nth j (Zseq lo k) d = lo + Z.of_nat j.
Proof.
  induction k as [|k IH]; intros lo j d Hj; [lia|].
  destruct j as [|j]; simpl.
  - lia.
  - rewrite IH by lia. lia.
Qed.

Lemma Zseq_NoDup (k : nat) : forall lo, NoDup (Zseq lo k).
Proof.
  induction k as [|k IH]; intros lo; simpl; constructor.
  - rewrite Zseq_In. lia.
  - apply IH.
Qed.

Lemma range_length (lo hi : Z) :
  lo <= hi -> Z.of_nat (List.length (range lo hi)) = hi - lo.
Proof. intros Hle. unfold range. rewrite Zseq_length. lia. Qed.

Lemma range_In (lo hi i : Z) : In i (range lo hi) <-> lo <= i < hi.
Proof. unfold range. rewrite Zseq_In. lia. Qed.

Lemma range_empty (lo hi : Z) : hi <= lo -> range lo hi = [].
Proof.
  intros Hle. unfold range.
  replace (Z.to_nat (hi - lo)) with O by lia. reflexivity.
Qed.

Lemma range_snoc (lo hi : Z) :
  lo <= hi -> range lo (hi + 1) = range lo hi ++ [hi].
Proof.
  intros Hle. unfold range.
  replace (Z.to_nat (hi + 1 - lo)) with (S (Z.to_nat (hi - lo))) by lia.
  rewrite Zseq_snoc. do 2 f_equal. lia.
Qed.

Lemma range_app (lo mid hi : Z) :
  lo <= mid <= hi -> range lo hi = range lo mid ++ range mid hi.
Proof.
  intros Hle. unfold range.
  replace (Z.to_nat (hi - lo))
    with (Z.to_nat (mid - lo) + Z.to_nat (hi - mid))%nat by lia.
  rewrite Zseq_app. do 2 f_equal. lia.
Qed.

Lemma range_NoDup (lo hi : Z) : NoDup (range lo hi).
Proof. apply Zseq_NoDup. Qed.

Lemma Znth_map_range {A : Type} (f : Z -> A) (lo hi i : Z) (d : A) :
  0 <= i < hi - lo -> Znth (map f (range lo hi)) i d = f (lo + i).
Proof.
  intros Hi. unfold Znth, range.
  rewrite nth_indep with (d' := f 0) by (rewrite length_map, Zseq_length; lia).
  rewrite map_nth, Zseq_nth by lia. f_equal. lia.
Qed.

(** ** Loops *)

Lemma for_empty {St : Type} (lo hi : Z) (body : Z -> St -> outcome St) (s : St) :
  hi <= lo -> for_ lo hi body s = Ret s.
Proof.
  intros Hle. unfold for_.
  replace (Z.to_nat (hi - lo)) with O by lia. reflexivity.
Qed.

(** The loop rule: an invariant [P i s] established at [lo] and kept by
    every iteration whose body returns holds at [hi], and the loop returns. *)
Lemma for_count_invariant {St : Type} (P : Z -> St -> Prop)
  (body : Z -> St -> outcome St) (count : nat) :
  forall (i : Z) (s : St),
    P i s ->
    (forall j t, i <= j < i + Z.of_nat count -> P j t ->
                 exists t', body j t = Ret t' /\ P (j + 1) t') ->
    exists s', for_count body i count s = Ret s' /\ P (i + Z.of_nat count) s'.
Proof.
  induction count as [|count IH]; intros i s Hs Hbody.
  - exists s. split; [reflexivity|]. now rewrite Z.add_0_r.
  - destruct (Hbody i s) as (t' & Ht' & HP'); [lia|assumption|].
    destruct (IH (i + 1) t' HP') as (s' & Hs' & HPs').
    + intros j t Hj. apply Hbody. lia.
    + exists s'. split.
      * simpl. rewrite Ht'. exact Hs'.
      * replace (i + Z.of_nat (S count)) with (i + 1 + Z.of_nat count) by lia.
        exact HPs'.
Qed.

Lemma for_invariant {St : Type} (P : Z -> St -> Prop) (lo hi : Z)
  (body : Z -> St -> outcome St) (s : St) :
  lo <= hi ->
  P lo s ->
  (forall j t, lo <= j < hi -> P j t ->
               exists t', body j t = Ret t' /\ P (j + 1) t') ->
  exists s', for_ lo hi body s = Ret s' /\ P hi s'.
Proof.
  intros Hle Hs Hbody. unfold for_.
  destruct (for_count_invariant P body (Z.to_nat (hi - lo)) lo s Hs)
    as (s' & Hs' & HP).
  - intros j t Hj. apply Hbody. lia.
  - exists s'. split; [exact Hs'|].
    replace hi with (lo + Z.of_nat (Z.to_nat (hi - lo))) at 1 by lia.
    exact HP.
Qed.

(** Two bodies that agree on the indices of the loop give the same loop. *)
Lemma for_count_ext {St : Type} (body body' : Z -> St -> outcome St)
  (count : nat) :
  forall (i : Z) (s : St),
    (forall j t, i <= j < i + Z.of_nat count -> body j t = body' j t) ->
    for_count body i count s = for_count body' i count s.
Proof.
  induction count as [|count IH]; intros i s Hbody; [reflexivity|].
  cbn [for_count]. rewrite Hbody by lia.
  destruct (body' i s); try reflexivity. cbn [bind].
  apply IH. intros j t Hj. apply Hbody. lia.
Qed.

Lemma for_ext {St : Type} (lo hi : Z) (body body' : Z -> St -> outcome St)
  (s : St) :
  (forall j t, lo <= j < hi -> body j t = body' j t) ->
  for_ lo hi body s = for_ lo hi body' s.
Proof.
  intros Hbody. unfold for_. apply for_count_ext.
  intros j t Hj. apply Hbody. lia.
Qed.

(** ** Buffers *)

Lemma update_length {A : Type} (p : list A) :
  forall i x, List.length (update p i x) = List.length p.
Proof.
  induction p as [|y p IH]; intros [|i] x; simpl; try reflexivity.
  now rewrite IH.
Qed.

Lemma update_nth_same {A : Type} (p : list A) :
  forall i x d, (i < List.length p)%nat -> nth i (update p i x) d = x.
Proof.
  induction p as [|y p IH]; intros [|i] x d Hi; simpl in *; try lia.
  - reflexivity.
  - apply IH. lia.
Qed.

Lemma update_nth_other {A : Type} (p : list A) :
  forall i j x d, i <> j -> nth j (update p i x) d = nth j p d.
Proof.
  induction p as [|y p IH]; intros [|i] [|j] x d Hij; simpl; try reflexivity.
  - contradiction.
  - apply IH. congruence.
Qed.

Lemma load_in {A : Type} (p : list A) (i : Z) (d : A) :
  0 <= i < Z.of_nat (List.length p) -> load p i = Ret (Znth p i d).
Proof.
  intros Hi. unfold load, Znth.
  replace ((0 <=? i) && (i <? Z.of_nat (List.length p))) with true
    by (symmetry; apply andb_true_iff; split; [apply Z.leb_le|apply Z.ltb_lt]; lia).
  destruct (nth_error p (Z.to_nat i)) as [x|] eqn:E.
  - now rewrite (nth_error_nth _ _ d E).
  - apply nth_error_None in E. lia.
Qed.

Lemma store_in {A : Type} (p : list A) (i : Z) (x : A) :
  0 <= i < Z.of_nat (List.length p) ->
  store p i x = Ret (update p (Z.to_nat i) x).
Proof.
  intros Hi. unfold store.
  replace ((0 <=? i) && (i <? Z.of_nat (List.length p))) with true
    by (symmetry; apply andb_true_iff; split; [apply Z.leb_le|apply Z.ltb_lt]; lia).
  reflexivity.
Qed.

Lemma Znth_update_same {A : Type} (p : list A) (i : Z) (x d : A) :
  0 <= i < Z.of_nat (List.length p) -> Znth (update p (Z.to_nat i) x) i d = x.
Proof. intros Hi. unfold Znth. apply update_nth_same. lia. Qed.

Lemma Znth_update_other {A : Type} (p : list A) (i j : Z) (x d : A) :
  0 <= i -> 0 <= j -> i <> j ->
  Znth (update p (Z.to_nat i) x) j d = Znth p j d.
Proof. intros Hi Hj Hij. unfold Znth. apply update_nth_other. lia. Qed.

(** ** [partition] *)

Lemma boundary_0 (n data_size : Z) : 1 <= n -> boundary n data_size 0 = 0.
Proof.
  intros Hn. unfold boundary.
  destruct (Z.eqb_spec 0 n); [lia|reflexivity].
Qed.

Lemma boundary_n (n data_size : Z) : boundary n data_size n = data_size.
Proof. unfold boundary. now rewrite Z.eqb_refl. Qed.

Lemma boundary_below (n data_size i : Z) :
  i < n -> boundary n data_size i = i * (data_size / n).
Proof.
  intros Hi. unfold boundary.
  destruct (Z.eqb_spec i n); [lia|reflexivity].
Qed.

Lemma chunk_fits (n data_size : Z) :
  1 <= n -> 0 <= data_size ->
  0 <= data_size / n /\ n * (data_size / n) <= data_size.
Proof.
  intros Hn Hd. split.
  - apply Z.div_pos; lia.
  - apply Z.mul_div_le. lia.
Qed.

Lemma boundary_mono (n data_size i j : Z) :
  1 <= n -> 0 <= data_size -> 0 <= i <= j -> j <= n ->
  boundary n data_size i <= boundary n data_size j.
Proof.
  intros Hn Hd Hij Hj.
  destruct (chunk_fits n data_size Hn Hd) as [Hq Hfit].
  unfold boundary.
  destruct (Z.eqb_spec i n), (Z.eqb_spec j n); nia.
Qed.

Lemma boundary_range (n data_size i : Z) :
  1 <= n -> 0 <= data_size -> 0 <= i <= n ->
  0 <= boundary n data_size i <= data_size.
Proof.
  intros Hn Hd Hi.
  pose proof (boundary_mono n data_size 0 i Hn Hd) as Hlo.
  pose proof (boundary_mono n data_size i n Hn Hd) as Hhi.
  rewrite boundary_0 in Hlo by assumption. rewrite boundary_n in Hhi. lia.
Qed.

(** The vector returned by [partition] is the list of the [n + 1]
    boundaries in their closed form. *)
Lemma partition_closed_form (n data_size : Z) :
  1 <= n -> SizeT.in_range data_size ->
  partition n data_size = Ret (map (boundary n data_size) (range 0 (n + 1))).
Proof.
  intros Hn Hd. unfold SizeT.in_range in Hd. unfold partition.
  destruct (Z.eqb_spec n 1) as [->|Hn1].
  - reflexivity.
  - destruct (Z.eqb_spec n 0) as [|_]; [lia|].
    destruct (chunk_fits n data_size Hn (proj1 Hd)) as [Hq Hfit].
    set (body := fun (i : Z) '(bnd, n1) => _).
    destruct (for_invariant
                (fun i st => fst st = map (boundary n data_size) (range 0 (i + 1))
                             /\ (i < n -> snd st = i * (data_size / n)))
                0 n body ([0], 0)) as (st & Hst & Hbnd & _).
    + lia.
    + split; [|simpl; lia].
      simpl. now rewrite boundary_0.
    + intros j [bnd n1] Hj [Hb Hn1']. simpl in Hb, Hn1'.
      eexists. split; [reflexivity|]. simpl. split.
      * rewrite (range_snoc 0 (j + 1)) by lia.
        rewrite map_app, <- Hb. simpl. f_equal. f_equal.
        unfold boundary. rewrite Hn1' by lia.
        replace (j + 1 =? n) with (j =? n - 1)
          by (destruct (Z.eqb_spec j (n - 1)), (Z.eqb_spec (j + 1) n); lia).
        destruct (Z.eqb_spec j (n - 1)); [reflexivity|].
        rewrite add_small by (unfold SizeT.in_range; nia). lia.
      * intros Hlt. rewrite Hn1' by lia.
        destruct (Z.eqb_spec j (n - 1)); [lia|].
        rewrite add_small by (unfold SizeT.in_range; nia). lia.
    + rewrite Hst. simpl. now rewrite Hbnd.
Qed.

Lemma partition_Znth (n data_size i : Z) :
  1 <= n -> 0 <= i <= n ->
  Znth (map (boundary n data_size) (range 0 (n + 1))) i 0
  = boundary n data_size i.
Proof. intros Hn Hi. rewrite Znth_map_range by lia. f_equal. Qed.

(** Every index below [data_size] lies in exactly one chunk. *)
Lemma boundary_cover (n data_size j : Z) :
  1 <= n -> 0 <= j < data_size ->
  exists i, 0 <= i < n
            /\ boundary n data_size i <= j < boundary n data_size (i + 1).
Proof.
  intros Hn Hj.
  destruct (chunk_fits n data_size Hn) as [Hq Hfit]; [lia|].
  destruct (Z.eq_dec (data_size / n) 0) as [Hz|Hz].
  - exists (n - 1). split; [lia|].
    rewrite boundary_below by lia.
    replace (n - 1 + 1) with n by lia. rewrite boundary_n. nia.
  - assert (Hdiv : (j / (data_size / n)) * (data_size / n) <= j
                   < (j / (data_size / n) + 1) * (data_size / n)).
    { pose proof (Z.mul_div_le j (data_size / n)).
      pose proof (Z.mul_succ_div_gt j (data_size / n)). nia. }
    assert (0 <= j / (data_size / n)) by (apply Z.div_pos; lia).
    destruct (Z_lt_le_dec (j / (data_size / n)) (n - 1)) as [Hlt|Hge].
    + exists (j / (data_size / n)). split; [lia|].
      rewrite !boundary_below by lia. lia.
    + exists (n - 1). split; [lia|].
      rewrite boundary_below by lia.
      replace (n - 1 + 1) with n by lia. rewrite boundary_n. nia.
Qed.

Lemma boundary_chunk_unique (n data_size j i i' : Z) :
  1 <= n -> 0 <= data_size ->
  0 <= i < n -> 0 <= i' < n ->
  boundary n data_size i <= j < boundary n data_size (i + 1) ->
  boundary n data_size i' <= j < boundary n data_size (i' + 1) ->
  i' = i.
Proof.
  intros Hn Hd Hi Hi' Hc Hc'.
  destruct (Z.lt_trichotomy i i') as [Hlt|[Heq|Hgt]]; [|congruence|].
  - pose proof (boundary_mono n data_size (i + 1) i' Hn Hd). lia.
  - pose proof (boundary_mono n data_size (i' + 1) i Hn Hd). lia.
Qed.

(** C10: for [n >= 1], [partition(n, data_size)] returns [n + 1] boundaries,
    non-decreasing, the first 0 and the last [data_size]; every index of
    [0, data_size) lies in exactly one of the [n] chunks, and when
    [data_size < n] all chunks but the last are empty. *)
Theorem partition_boundaries (n data_size : Z) :
  1 <= n -> SizeT.in_range data_size ->
  exists bnd,
    partition n data_size = Ret bnd
    /\ Z.of_nat (List.length bnd) = n + 1
    /\ Znth bnd 0 0 = 0
    /\ Znth bnd n 0 = data_size
    /\ (forall i, 0 <= i < n -> Znth bnd i 0 <= Znth bnd (i + 1) 0)
    /\ (forall j, 0 <= j < data_size ->
          exists i, (0 <= i < n /\ Znth bnd i 0 <= j < Znth bnd (i + 1) 0)
                    /\ forall i', 0 <= i' < n ->
                         Znth bnd i' 0 <= j < Znth bnd (i' + 1) 0 -> i' = i)
    /\ (data_size < n ->
          forall i, 0 <= i < n - 1 -> Znth bnd i 0 = Znth bnd (i + 1) 0).
Proof.
  intros Hn Hd. pose proof Hd as [Hd0 _].
  exists (map (boundary n data_size) (range 0 (n + 1))).
  split; [now apply partition_closed_form|].
  split; [rewrite length_map, range_length; lia|].
  split; [rewrite partition_Znth by lia; now apply boundary_0|].
  split; [rewrite partition_Znth by lia; apply boundary_n|].
  split; [|split].
  - intros i Hi. rewrite !partition_Znth by lia.
    apply boundary_mono; lia.
  - intros j Hj.
    destruct (boundary_cover n data_size j Hn Hj) as (i & Hi & Hc).
    exists i. split.
    + split; [exact Hi|]. now rewrite !partition_Znth by lia.
    + intros i' Hi' Hc'. rewrite !partition_Znth in Hc' by lia.
      now apply (boundary_chunk_unique n data_size j i i').
  - intros Hlt i Hi. rewrite !partition_Znth by lia.
    rewrite !boundary_below by lia.
    rewrite Z.div_small by lia. lia.
Qed.

Lemma partition_boundaries_witness :
  exists bnd,
    partition 4 2 = Ret bnd
    /\ Z.of_nat (List.length bnd) = 4 + 1
    /\ Znth bnd 0 0 = 0
    /\ Znth bnd 4 0 = 2
    /\ (forall i, 0 <= i < 4 -> Znth bnd i 0 <= Znth bnd (i + 1) 0)
    /\ (forall j, 0 <= j < 2 ->
          exists i, (0 <= i < 4 /\ Znth bnd i 0 <= j < Znth bnd (i + 1) 0)
                    /\ forall i', 0 <= i' < 4 ->
                         Znth bnd i' 0 <= j < Znth bnd (i' + 1) 0 -> i' = i)
    /\ (2 < 4 ->
          forall i, 0 <= i < 4 - 1 -> Znth bnd i 0 = Znth bnd (i + 1) 0).
Proof.
  apply (partition_boundaries 4 2).
  - lia.
  - unfold SizeT.in_range. rewrite modulus_eq. lia.
Defined.

(** ** [dimSize] *)

(** The test [s & (s - 1)] of a positive [s] is zero exactly at the powers
    of two. *)
Lemma land_pred_pow2 (j : Z) : 0 <= j -> Z.land (2 ^ j) (2 ^ j - 1) = 0.
Proof.
  intros Hj. rewrite Z.sub_1_r, <- Z.ones_equiv, Z.land_ones by assumption.
  apply Z.mod_same. apply Z.pow_nonzero; lia.
Qed.

Lemma land_pred_zero_pow2 (s : Z) :
  0 < s -> Z.land s (s - 1) = 0 -> exists j, 0 <= j /\ s = 2 ^ j.
Proof.
  intros Hs Hland.
  destruct (Z.log2_spec_alt s Hs) as (r & Hsr & Hr).
  pose proof (Z.log2_nonneg s) as Hk.
  exists (Z.log2 s). split; [assumption|].
  destruct (Z.eq_dec r 0) as [->|Hr0]; [lia|].
  exfalso.
  assert (Hlog : Z.log2 (s - 1) = Z.log2 s)
    by (apply (Z.log2_unique' (s - 1) (Z.log2 s) (r - 1)); lia).
  assert (Hbit : Z.testbit (Z.land s (s - 1)) (Z.log2 s) = true).
  { rewrite Z.land_spec, Z.bit_log2 by assumption.
    rewrite <- Hlog. rewrite Z.bit_log2 by lia. reflexivity. }
  rewrite Hland, Z.testbit_0_l in Hbit. discriminate.
Qed.

Lemma pow4_pow2 (k : Z) : 0 <= k -> 4 ^ k = 2 ^ (2 * k).
Proof. intros Hk. now rewrite Z.pow_mul_r by lia. Qed.

Lemma pow4_square (k : Z) : 0 <= k -> 4 ^ k = 2 ^ k * 2 ^ k.
Proof.
  intros Hk. rewrite pow4_pow2, <- Z.pow_add_r by lia. f_equal. lia.
Qed.

(** An odd power of two is not a square. *)
Lemma odd_pow2_not_square (k : Z) :
  0 <= k -> forall r, r * r <> 2 ^ (2 * k + 1).
Proof.
  intros Hk. pattern k. apply natlike_ind; [| |exact Hk]; clear k Hk.
  - intros r Hr. change (2 ^ (2 * 0 + 1)) with 2 in Hr.
    assert (Hcases : r <= -2 \/ -1 <= r <= 1 \/ 2 <= r) by lia.
    destruct Hcases as [Hc|[Hc|Hc]]; nia.
  - intros k Hk IH r Hr.
    replace (2 * Z.succ k + 1) with (2 + (2 * k + 1)) in Hr by lia.
    rewrite Z.pow_add_r in Hr by lia. change (2 ^ 2) with 4 in Hr.
    destruct (Z.Even_or_Odd r) as [[q ->]|[q ->]].
    + apply (IH q). lia.
    + lia.
Qed.

Lemma pow2_inj (a b : Z) : 0 <= a -> 0 <= b -> 2 ^ a = 2 ^ b -> a = b.
Proof. intros Ha Hb Heq. apply (Z.pow_inj_r 2); lia. Qed.

(** The two ways [dimSize] ends. *)
Lemma dimSize_cases {A : Type} (data : list A) :
  SizeT.in_range (Z.of_nat (List.length data)) ->
  (exists k, 1 <= k /\ Z.of_nat (List.length data) = 4 ^ k
             /\ dimSize data = Ret k)
  \/ ((forall k, 1 <= k -> Z.of_nat (List.length data) <> 4 ^ k)
      /\ exists msg, dimSize data = Throw (invalid_argument msg)).
Proof.
  unfold dimSize, SizeT.in_range.
  set (s := Z.of_nat (List.length data)). intros Hs.
  destruct (Z.ltb_spec s 4) as [Hlt|Hge].
  { right. split; [|eexists; reflexivity].
    intros k Hk Heq.
    assert (4 ^ 1 <= 4 ^ k) by (apply Z.pow_le_mono_r; lia).
    change (4 ^ 1) with 4 in *. lia. }
  rewrite sub_small by (unfold SizeT.in_range; lia).
  destruct (Z.eqb_spec s 0) as [|_]; [lia|]. cbn [orb].
  destruct (Z.eqb_spec (Z.land s (s - 1)) 0) as [Hland|Hland]; cbn [negb].
  2:{ right. split; [|eexists; reflexivity].
      intros k Hk Heq. apply Hland.
      rewrite Heq, pow4_pow2 by lia. apply land_pred_pow2. lia. }
  destruct (land_pred_zero_pow2 s) as (j & Hj & Hsj); [lia|assumption|].
  assert (Hroot : Z.sqrt s * Z.sqrt s <= s) by (apply Z.sqrt_spec; lia).
  pose proof (Z.sqrt_nonneg s) as Hroot0.
  rewrite mul_small by (unfold SizeT.in_range; nia).
  destruct (Z.Even_or_Odd j) as [[k ->]|[k ->]].
  - left. exists k.
    assert (Hk : 1 <= k).
    { destruct (Z_lt_le_dec k 1) as [Hk|Hk]; [|exact Hk].
      assert (2 ^ (2 * k) <= 2 ^ 0) by (apply Z.pow_le_mono_r; lia).
      change (2 ^ 0) with 1 in *. lia. }
    assert (Hs4 : s = 4 ^ k) by (rewrite pow4_pow2 by lia; exact Hsj).
    split; [exact Hk|]. split; [exact Hs4|].
    assert (Hsq : Z.sqrt s = 2 ^ k).
    { rewrite Hs4, pow4_square by lia. apply Z.sqrt_square.
      apply Z.pow_nonneg. lia. }
    rewrite Hsq, <- pow4_square, <- Hs4, Z.eqb_refl by lia. cbn [negb].
    unfold log2. now rewrite Z.log2_pow2 by lia.
  - right.
    assert (Hnot : forall k', 1 <= k' -> s <> 4 ^ k').
    { intros k' Hk' Heq. rewrite pow4_pow2 in Heq by lia.
      assert (2 * k + 1 = 2 * k') by (apply pow2_inj; lia). lia. }
    split; [exact Hnot|].
    destruct (Z.eqb_spec (Z.sqrt s * Z.sqrt s) s) as [Heq|_].
    + exfalso. apply (odd_pow2_not_square k ltac:(lia) (Z.sqrt s)). lia.
    + eexists. reflexivity.
Qed.

(** C8: [dimSize(data)] returns [k] exactly when [data.size()] is [4^k]
    with [k >= 1]; for every other size it throws [std::invalid_argument]. *)
Theorem dimSize_returns_iff_power_of_four {A : Type} (data : list A) :
  SizeT.in_range (Z.of_nat (List.length data)) ->
  (forall k, dimSize data = Ret k
             <-> 1 <= k /\ Z.of_nat (List.length data) = 4 ^ k)
  /\ ((forall k, 1 <= k -> Z.of_nat (List.length data) <> 4 ^ k) ->
      exists msg, dimSize data = Throw (invalid_argument msg)).
Proof.
  intros Hs.
  destruct (dimSize_cases data Hs)
    as [(k0 & Hk0 & Hsize & Hret)|(Hnot & msg & Hthrow)].
  - split.
    + intros k. rewrite Hret. split.
      * intros [= <-]. now split.
      * intros [Hk Heq]. f_equal.
        rewrite Heq, !pow4_pow2 in Hsize by lia.
        assert (2 * k = 2 * k0) by (apply pow2_inj; lia). lia.
    + intros Hnot. now destruct (Hnot k0 Hk0).
  - split.
    + intros k. rewrite Hthrow. split; [discriminate|].
      intros [Hk Heq]. now destruct (Hnot k Hk).
    + intros _. now exists msg.
Qed.

Lemma dimSize_returns_iff_power_of_four_witness :
  (forall k, dimSize (repeat tt 16) = Ret k
             <-> 1 <= k /\ Z.of_nat (List.length (repeat tt 16)) = 4 ^ k)
  /\ ((forall k, 1 <= k -> Z.of_nat (List.length (repeat tt 16)) <> 4 ^ k) ->
      exists msg, dimSize (repeat tt 16) = Throw (invalid_argument msg)).
Proof.
  apply (dimSize_returns_iff_power_of_four (repeat tt 16)).
  unfold SizeT.in_range. rewrite modulus_eq. simpl. lia.
Defined.

(** ** [Abort] *)

Lemma append_assoc (a b c : string) :
  ((a ++ b) ++ c)%string = (a ++ b ++ c)%string.
Proof. induction a as [|ch a IH]; simpl; [reflexivity|]. now rewrite IH. Qed.

Lemma append_empty_r (a : string) : (a ++ "")%string = a.
Proof. induction a as [|ch a IH]; simpl; [reflexivity|]. now rewrite IH. Qed.

(** C9: [Abort] never returns: it throws a [LightningException] whose
    [what()] contains the file name, the line number, the function name and
    the message. *)
Theorem Abort_throws_located_message
  (message file_name : string) (line : Z) (function_name : string) :
  (forall u, Abort message file_name line function_name <> Ret u)
  /\ exists err_msg,
       Abort message file_name line function_name
       = Throw (LightningException err_msg)
       /\ contains (what (LightningException err_msg)) file_name
       /\ contains (what (LightningException err_msg)) (string_of_int line)
       /\ contains (what (LightningException err_msg)) function_name
       /\ contains (what (LightningException err_msg)) message.
Proof.
  split; [intros u; discriminate|].
  eexists. split; [reflexivity|]. cbn [what].
  repeat split.
  - now exists "["%string,
      ("][Line:" ++ string_of_int line ++ "][Method:" ++ function_name
         ++ "]: Error in PennyLane Lightning: " ++ message)%string.
  - exists ("[" ++ file_name ++ "][Line:")%string,
      ("][Method:" ++ function_name
         ++ "]: Error in PennyLane Lightning: " ++ message)%string.
    rewrite !append_assoc. reflexivity.
  - exists ("[" ++ file_name ++ "][Line:" ++ string_of_int line
              ++ "][Method:")%string,
      ("]: Error in PennyLane Lightning: " ++ message)%string.
    rewrite !append_assoc. reflexivity.
  - exists ("[" ++ file_name ++ "][Line:" ++ string_of_int line
              ++ "][Method:" ++ function_name
              ++ "]: Error in PennyLane Lightning: ")%string, ""%string.
    rewrite append_empty_r, !append_assoc. reflexivity.
Qed.

(** ** Null output pointer *)

(** C7: with a null output pointer [matrixVecProd] and [matrixMatProd]
    return at once, whatever the other arguments: nothing is thrown, no
    buffer is read or written. *)
Theorem null_output_is_silent_noop {T : Type} `{Scalar T}
  (a b : list (complex T)) (m n k nthreads : Z) (transpose : bool)
  (sched : list Z) :
  matrixVecProd a b None m n nthreads transpose sched = Ret None
  /\ matrixMatProd a b None m n k nthreads transpose sched = Ret None.
Proof. split; reflexivity. Qed.

(** ** Workers *)

Lemma run_threads_fold {St : Type} (worker : Z -> St -> outcome St)
  (step : Z -> St -> St) (sched : list Z) :
  (forall i s, In i sched -> worker i s = Ret (step i s)) ->
  forall s, run_threads worker sched s
            = Ret (fold_left (fun s i => step i s) sched s).
Proof.
  induction sched as [|i sched IH]; intros Hworker s; simpl.
  - reflexivity.
  - rewrite Hworker by now left. simpl.
    apply IH. intros j t Hj. apply Hworker. now right.
Qed.

(** A worker reads its two boundaries from the vector [partition]
    returned. *)
Lemma worker_bounds (n data_size i : Z) :
  1 <= n -> 0 <= i < n ->
  load (map (boundary n data_size) (range 0 (n + 1))) i
  = Ret (boundary n data_size i)
  /\ load (map (boundary n data_size) (range 0 (n + 1))) (i + 1)
     = Ret (boundary n data_size (i + 1)).
Proof.
  intros Hn Hi.
  assert (Hlen : Z.of_nat (List.length
                   (map (boundary n data_size) (range 0 (n + 1)))) = n + 1)
    by (rewrite length_map, range_length; lia).
  split; rewrite (load_in _ _ 0), partition_Znth by lia; reflexivity.
Qed.

(** ** Sums over index ranges *)

Section Sums.

Context {T : Type} {ST : Scalar T}.

Local Abbreviation C := (complex T).

Lemma Csum_empty (f : Z -> C) (lo hi : Z) : hi <= lo -> Csum f lo hi = C0.
Proof. intros Hle. unfold Csum. now rewrite range_empty. Qed.

Lemma Csum_snoc (f : Z -> C) (lo hi : Z) :
  lo <= hi -> Csum f lo (hi + 1) = Cadd (Csum f lo hi) (f hi).
Proof.
  intros Hle. unfold Csum. rewrite range_snoc by assumption.
  now rewrite fold_left_app.
Qed.

Lemma Csum_ext (f g : Z -> C) (lo hi : Z) :
  (forall i, lo <= i < hi -> f i = g i) -> Csum f lo hi = Csum g lo hi.
Proof.
  intros Hfg. unfold Csum.
  assert (Hin : forall i, In i (range lo hi) -> f i = g i)
    by (intros i Hi; apply Hfg; now apply range_In).
  generalize (@C0 T ST).
  induction (range lo hi) as [|i l IH]; intros acc; simpl.
  - reflexivity.
  - rewrite (Hin i) by now left.
    apply IH. intros j Hj. apply Hin. now right.
Qed.

(** The loop of the inner products: a sum of products over [l, r). *)
Lemma product_loop (g : C -> C -> C) (v1 v2 : list C) (l r : Z) :
  List.length v1 = List.length v2 ->
  0 <= l -> r <= Z.of_nat (List.length v1) ->
  for_ l r
    (fun i s => x <- load v1 i ;; y <- load v2 i ;; Ret (Cadd s (g x y))) C0
  = Ret (Csum (fun i => g (Znth v1 i C0) (Znth v2 i C0)) l r).
Proof.
  intros Hlen Hl Hr.
  destruct (Z_le_gt_dec l r) as [Hle|Hgt].
  - destruct (for_invariant
                (fun i s => s = Csum (fun i => g (Znth v1 i C0) (Znth v2 i C0)) l i)
                l r
                (fun i s => x <- load v1 i ;; y <- load v2 i ;;
                            Ret (Cadd s (g x y)))
                C0 Hle) as (s & Hs & ->).
    + now rewrite Csum_empty by lia.
    + intros j t Hj ->.
      rewrite (load_in v1 j C0), (load_in v2 j C0) by lia.
      eexists. split; [reflexivity|]. now rewrite Csum_snoc by lia.
    + exact Hs.
  - rewrite for_empty, Csum_empty by lia. reflexivity.
Qed.

End Sums.

(** ** Inner products in exact arithmetic *)

Section ExactInnerProduct.

Context {T : Type} {ST : Scalar T}.
Hypothesis Tring : ring_theory zero one add mul sub opp (@eq T).

Add Ring Tring : Tring.

Local Abbreviation C := (complex T).

Lemma Cadd_assoc (a b c : C) : Cadd (Cadd a b) c = Cadd a (Cadd b c).
Proof. unfold Cadd. simpl. f_equal; ring. Qed.

Lemma Cadd_comm (a b : C) : Cadd a b = Cadd b a.
Proof. unfold Cadd. f_equal; ring. Qed.

Lemma Cadd_0_l (a : C) : Cadd C0 a = a.
Proof. destruct a as [x y]. unfold Cadd, C0. simpl. f_equal; ring. Qed.

Lemma Cadd_0_r (a : C) : Cadd a C0 = a.
Proof. rewrite Cadd_comm. apply Cadd_0_l. Qed.

Lemma ConstMultConj_conj (a b : C) : ConstMultConj a b = Cmul (conj a) b.
Proof. unfold ConstMultConj, Cmul, conj. simpl. f_equal; ring. Qed.

(** An accumulation started at [a] is [a] plus the accumulation started at
    zero. *)
Lemma fold_Cadd_start {A : Type} (g : A -> C) (l : list A) :
  forall a, fold_left (fun acc i => Cadd acc (g i)) l a
            = Cadd a (fold_left (fun acc i => Cadd acc (g i)) l C0).
Proof.
  induction l as [|i l IH]; intros a; simpl.
  - now rewrite Cadd_0_r.
  - rewrite IH, (IH (Cadd C0 (g i))), Cadd_0_l. apply Cadd_assoc.
Qed.

(** The order in which the workers add their partial sums is immaterial. *)
Lemma fold_Cadd_permutation {A : Type} (g : A -> C) (l l' : list A) :
  Permutation l l' ->
  forall a, fold_left (fun acc i => Cadd acc (g i)) l a
            = fold_left (fun acc i => Cadd acc (g i)) l' a.
Proof.
  induction 1 as [|i l l' _ IH|i j l|l l' l'' _ IH1 _ IH2]; intros a; simpl.
  - reflexivity.
  - apply IH.
  - f_equal. rewrite !Cadd_assoc. f_equal. apply Cadd_comm.
  - now rewrite IH1.
Qed.

Lemma Csum_split (f : Z -> C) (lo mid hi : Z) :
  lo <= mid <= hi -> Csum f lo hi = Cadd (Csum f lo mid) (Csum f mid hi).
Proof.
  intros Hle. unfold Csum at 1.
  rewrite (range_app lo mid hi Hle), fold_left_app.
  apply fold_Cadd_start.
Qed.

(** The partial sums of the chunks of [partition], added in the order of
    the chunks, make the sum over the whole range. *)
Lemma chunk_sums (f : Z -> C) (n data_size k : Z) :
  1 <= n -> 0 <= data_size -> 0 <= k <= n ->
  fold_left
    (fun acc i => Cadd acc (Csum f (boundary n data_size i)
                                   (boundary n data_size (i + 1))))
    (range 0 k) C0
  = Csum f 0 (boundary n data_size k).
Proof.
  intros Hn Hd [Hk0 Hkn]. revert Hkn. pattern k.
  apply natlike_ind; [| |exact Hk0]; clear k Hk0.
  - intros _. rewrite boundary_0 by assumption. reflexivity.
  - intros k Hk IH Hkn. unfold Z.succ.
    rewrite range_snoc, fold_left_app by lia. simpl.
    rewrite IH by lia. symmetry. apply Csum_split.
    pose proof (boundary_range n data_size k Hn Hd).
    pose proof (boundary_mono n data_size k (k + 1) Hn Hd). lia.
Qed.

(** The threaded branch, for any product [g] of the two entries. *)
Lemma threaded_sum (g : C -> C -> C) (v1 v2 : list C) (nthreads : Z)
  (sched : list Z) :
  List.length v1 = List.length v2 ->
  SizeT.in_range (Z.of_nat (List.length v1)) ->
  1 <= nthreads ->
  Permutation sched (range 0 nthreads) ->
  (bnd <- partition nthreads (Z.of_nat (List.length v1)) ;;
   run_threads
     (fun i result =>
        l <- load bnd i ;; r <- load bnd (i + 1) ;;
        s <- for_ l r
               (fun i s => x <- load v1 i ;; y <- load v2 i ;;
                           Ret (Cadd s (g x y))) C0 ;;
        Ret (Cadd result s))
     sched C0)
  = Ret (Csum (fun i => g (Znth v1 i C0) (Znth v2 i C0))
              0 (Z.of_nat (List.length v1))).
Proof.
  intros Hlen Hsize Hn Hperm.
  set (size := Z.of_nat (List.length v1)) in *.
  assert (Hsize0 : 0 <= size) by (unfold size; lia).
  rewrite partition_closed_form by assumption. cbn [bind].
  set (f := fun i => g (Znth v1 i C0) (Znth v2 i C0)).
  rewrite (run_threads_fold _
             (fun i result => Cadd result (Csum f (boundary nthreads size i)
                                             (boundary nthreads size (i + 1))))).
  - f_equal.
    rewrite (fold_Cadd_permutation _ _ _ Hperm).
    rewrite (chunk_sums f nthreads size nthreads) by lia.
    now rewrite boundary_n.
  - intros i result Hi.
    apply (Permutation_in _ Hperm), range_In in Hi.
    destruct (worker_bounds nthreads size i Hn) as [-> ->]; [lia|].
    cbn [bind].
    pose proof (boundary_range nthreads size i Hn Hsize0).
    pose proof (boundary_range nthreads size (i + 1) Hn Hsize0).
    rewrite product_loop by (fold size; lia). reflexivity.
Qed.

Lemma innerProd_dot (v1 v2 : list C) (nthreads : Z) (sched : list Z) :
  List.length v1 = List.length v2 ->
  SizeT.in_range (Z.of_nat (List.length v1)) ->
  1 <= nthreads ->
  Permutation sched (range 0 nthreads) ->
  innerProd v1 v2 (Z.of_nat (List.length v1)) nthreads sched = Ret (dot v1 v2).
Proof.
  intros Hlen Hsize Hn Hperm. unfold innerProd, dot.
  destruct (Z.of_nat (List.length v1) >? DOTU_STD_CROSSOVER).
  - unfold std_inner_product, ConstSum.
    now rewrite (product_loop ConstMult) by lia.
  - now apply (threaded_sum Cmul).
Qed.

Lemma innerProdC_dotC (v1 v2 : list C) (nthreads : Z) (sched : list Z) :
  List.length v1 = List.length v2 ->
  SizeT.in_range (Z.of_nat (List.length v1)) ->
  1 <= nthreads ->
  Permutation sched (range 0 nthreads) ->
  innerProdC v1 v2 (Z.of_nat (List.length v1)) nthreads sched
  = Ret (dotC v1 v2).
Proof.
  intros Hlen Hsize Hn Hperm. unfold innerProdC, dotC.
  destruct (Z.of_nat (List.length v1) >? DOTC_STD_CROSSOVER).
  - unfold std_inner_product, ConstSum.
    rewrite (product_loop ConstMultConj) by lia. f_equal.
    apply Csum_ext. intros i _. apply ConstMultConj_conj.
  - now apply (threaded_sum (fun x y => Cmul (conj x) y)).
Qed.


(** *** The inner product of a vector with itself *)

(** A sum over the indices of a vector is a sum over its entries. *)
Lemma Csum_entries (h : C -> C) (v : list C) :
  Csum (fun i => h (Znth v i C0)) 0 (Z.of_nat (List.length v))
  = fold_left (fun acc z => Cadd acc (h z)) v C0.
Proof.
  induction v as [|z v IH] using rev_ind.
  - reflexivity.
  - rewrite length_app, fold_left_app. simpl List.length. simpl fold_left.
    replace (Z.of_nat (List.length v + 1)) with (Z.of_nat (List.length v) + 1)
      by lia.
    rewrite Csum_snoc by lia. f_equal.
    + rewrite <- IH. apply Csum_ext. intros i Hi. f_equal.
      unfold Znth. apply app_nth1. lia.
    + f_equal. unfold Znth. rewrite app_nth2 by lia.
      replace (Z.to_nat (Z.of_nat (List.length v)) - List.length v)%nat
        with O by lia.
      reflexivity.
Qed.

Lemma dot_self (v : list C) : dot v v = sum_squares v.
Proof. unfold dot, sum_squares. apply (Csum_entries (fun z => Cmul z z)). Qed.

Lemma dotC_self (v : list C) : dotC v v = Complex (sum_norm v) zero.
Proof.
  unfold dotC, sum_norm.
  rewrite (Csum_entries (fun z => Cmul (conj z) z)).
  change (@C0 T ST) with (Complex (@zero T ST) zero).
  generalize (@zero T ST) at 1 3.
  induction v as [|z v IH]; intros a; simpl.
  - reflexivity.
  - rewrite <- IH. f_equal.
    unfold Cadd, Cmul, conj, norm. simpl. f_equal; ring.
Qed.

(** C1, as it holds: in exact arithmetic and without the accelerated
    library, [innerProdC(v, v)], which conjugates its first operand, is the
    sum of the squared magnitudes of the entries of [v]; [innerProd(v, v)]
    is the sum of their squares. *)
Theorem innerProdC_self_is_sum_of_squared_magnitudes (v : list C)
  (sched : list Z) :
  SizeT.in_range (Z.of_nat (List.length v)) ->
  Permutation sched (range 0 2) ->
  innerProdC_vector v v sched = Ret (Complex (sum_norm v) zero)
  /\ innerProd_vector v v sched = Ret (sum_squares v).
Proof.
  intros Hsize Hperm. unfold innerProdC_vector, innerProd_vector. split.
  - rewrite innerProdC_dotC by (assumption || lia || reflexivity).
    now rewrite dotC_self.
  - rewrite innerProd_dot by (assumption || lia || reflexivity).
    now rewrite dot_self.
Qed.

End ExactInnerProduct.

Lemma in_range_small (z : Z) : 0 <= z < 1000000 -> SizeT.in_range z.
Proof. unfold SizeT.in_range. rewrite modulus_eq. lia. Qed.


Lemma innerProdC_self_is_sum_of_squared_magnitudes_witness :
  let v := [Complex 0 1; Complex 2 (-3)] in
  innerProdC_vector v v [1; 0] = Ret (Complex (sum_norm v) zero)
  /\ innerProd_vector v v [1; 0] = Ret (sum_squares v).
Proof.
  apply (@innerProdC_self_is_sum_of_squared_magnitudes Z Z_Scalar Zth).
  - apply in_range_small. simpl. lia.
  - apply perm_swap.
Defined.

(** C1 as stated fails: for the one-entry vector [v = (i)], [innerProd(v, v)]
    is [i * i = -1], while the squared magnitude of [i] is 1. *)
Lemma innerProd_self_not_sum_of_squared_magnitudes :
  let v := [Complex 0 1] in
  innerProd_vector v v [0; 1] = Ret (Complex (-1) 0)
  /\ sum_norm v = 1
  /\ innerProd_vector v v [0; 1] <> Ret (Complex (sum_norm v) 0).
Proof. repeat split. discriminate. Qed.

(** ** Workers on chunks of rows *)

(** The matrix kernels share one shape: worker [i] runs [work] on the rows
    [boundary i, boundary (i + 1)) of a buffer of [size] entries, and [work]
    on rows [left, right) replaces entry [j] by [F j] of it when the row of
    [j] is in [left, right), and leaves it alone otherwise.  Then, whatever
    the order of the workers, every entry [j] ends as [F j] of what it
    was. *)
Section Workers.

Context {A : Type} (d : A).
Variables (nthreads m size : Z) (row : Z -> Z) (F : Z -> A -> A).
Variable work : list A -> Z -> Z -> outcome (list A).
Hypothesis Hthreads : 1 <= nthreads.
Hypothesis Hm : SizeT.in_range m.
Hypothesis Hrow : forall j, 0 <= j < size -> 0 <= row j < m.
Hypothesis Hwork :
  forall cur left right,
    Z.of_nat (List.length cur) = size -> 0 <= left -> right <= m ->
    exists out,
      work cur left right = Ret out
      /\ Z.of_nat (List.length out) = size
      /\ forall j, 0 <= j < size ->
           Znth out j d
           = if (left <=? row j) && (row j <? right)
             then F j (Znth cur j d) else Znth cur j d.

Lemma workers_run (out0 : list A) :
  forall sched cur,
    NoDup sched -> (forall i, In i sched -> 0 <= i < nthreads) ->
    Z.of_nat (List.length cur) = size ->
    (forall j, 0 <= j < size -> in_chunks nthreads m sched (row j) = true ->
               Znth cur j d = Znth out0 j d) ->
    exists out',
      run_threads
        (fun i out =>
           l <- load (map (boundary nthreads m) (range 0 (nthreads + 1))) i ;;
           r <- load (map (boundary nthreads m) (range 0 (nthreads + 1))) (i + 1) ;;
           work out l r)
        sched cur = Ret out'
      /\ Z.of_nat (List.length out') = size
      /\ forall j, 0 <= j < size ->
           Znth out' j d
           = if in_chunks nthreads m sched (row j)
             then F j (Znth out0 j d) else Znth cur j d.
Proof.
  destruct Hm as [Hm0 _].
  induction sched as [|i sched IH]; intros cur Hnodup Hids Hcur Hpending.
  - exists cur. split; [reflexivity|]. split; [assumption|]. reflexivity.
  - apply NoDup_cons_iff in Hnodup as [Hnotin Hnodup'].
    assert (Hi : 0 <= i < nthreads) by (apply Hids; now left).
    cbn [run_threads].
    destruct (worker_bounds nthreads m i Hthreads Hi) as [-> ->]. cbn [bind].
    pose proof (boundary_range nthreads m i Hthreads Hm0) as Hbi.
    pose proof (boundary_range nthreads m (i + 1) Hthreads Hm0) as Hbi1.
    destruct (Hwork cur (boundary nthreads m i) (boundary nthreads m (i + 1)) Hcur)
      as (cur1 & -> & Hlen1 & Hrows1); [lia|lia|]. cbn [bind].
    destruct (IH cur1 Hnodup') as (out' & Hrun & Hlen' & Hrows').
    + intros j Hj. apply Hids. now right.
    + assumption.
    + intros j Hj Hin. rewrite Hrows1 by assumption.
      destruct ((boundary nthreads m i <=? row j)
                && (row j <? boundary nthreads m (i + 1))) eqn:Hchunk.
      * exfalso. unfold in_chunks in Hin.
        apply existsb_exists in Hin. destruct Hin as (i' & Hi' & Hjr).
        apply andb_true_iff in Hchunk, Hjr.
        rewrite Z.leb_le, Z.ltb_lt in Hchunk, Hjr.
        assert (i' = i).
        { apply (boundary_chunk_unique nthreads m (row j) i i'); try lia.
          apply Hids. now right. }
        subst i'. contradiction.
      * apply Hpending; [assumption|]. unfold in_chunks. cbn [existsb].
        fold (in_chunks nthreads m sched (row j)). rewrite Hin.
        apply orb_true_r.
    + exists out'. split; [exact Hrun|]. split; [assumption|].
      intros j Hj. rewrite Hrows' by assumption.
      unfold in_chunks at 2. cbn [existsb].
      fold (in_chunks nthreads m sched (row j)).
      destruct (in_chunks nthreads m sched (row j)) eqn:Hin.
      * now rewrite orb_true_r.
      * rewrite orb_false_r, Hrows1 by assumption.
        destruct ((boundary nthreads m i <=? row j)
                  && (row j <? boundary nthreads m (i + 1))) eqn:Hchunk;
          [|reflexivity].
        f_equal. apply Hpending; [assumption|].
        unfold in_chunks. cbn [existsb]. now rewrite Hchunk.
Qed.

Lemma workers_all (out0 : list A) (sched : list Z) :
  Z.of_nat (List.length out0) = size ->
  Permutation sched (range 0 nthreads) ->
  exists out',
    run_threads
      (fun i out =>
         l <- load (map (boundary nthreads m) (range 0 (nthreads + 1))) i ;;
         r <- load (map (boundary nthreads m) (range 0 (nthreads + 1))) (i + 1) ;;
         work out l r)
      sched out0 = Ret out'
    /\ Z.of_nat (List.length out') = size
    /\ forall j, 0 <= j < size -> Znth out' j d = F j (Znth out0 j d).
Proof.
  intros Hout Hperm.
  destruct (workers_run out0 sched out0) as (out' & Hrun & Hlen & Hrows).
  - apply (Permutation_NoDup (Permutation_sym Hperm)), range_NoDup.
  - intros i Hi. apply (Permutation_in _ Hperm), range_In in Hi. lia.
  - assumption.
  - reflexivity.
  - exists out'. split; [exact Hrun|]. split; [assumption|].
    intros j Hj. rewrite Hrows by assumption.
    replace (in_chunks nthreads m sched (row j)) with true; [reflexivity|].
    symmetry. apply existsb_exists.
    destruct (boundary_cover nthreads m (row j) Hthreads (Hrow j Hj))
      as (i & Hi & Hc).
    exists i. split.
    + apply (Permutation_in _ (Permutation_sym Hperm)), range_In. lia.
    + apply andb_true_iff. rewrite Z.leb_le, Z.ltb_lt. lia.
Qed.

End Workers.

(** ** Matrix-vector product *)

Section MatrixVector.

Context {T : Type} {ST : Scalar T}.

Local Abbreviation C := (complex T).

Variables (mat v_in : list C) (m n : Z).
Hypothesis Hm : 0 <= m.
Hypothesis Hn : 0 <= n.
Hypothesis Hmat : Z.of_nat (List.length mat) = m * n.
Hypothesis Hv_in : Z.of_nat (List.length v_in) = n.
Hypothesis Hsize : m * n < SizeT.modulus.

(** One row: the inner loop adds the [n] terms of row [r] to [v_out[r]] and
    leaves the other entries alone. *)
Lemma matrixVecProd_row (out : list C) (r : Z) :
  Z.of_nat (List.length out) = m -> 0 <= r < m ->
  exists out',
    for_ 0 n
      (fun c v_out =>
         a <- load mat (SizeT.add (SizeT.mul r n) c) ;;
         x <- load v_in c ;;
         y <- load v_out r ;;
         store v_out r (Cadd y (Cmul a x)))
      out = Ret out'
    /\ Z.of_nat (List.length out') = m
    /\ Znth out' r C0 = row_accumulate mat v_in n r (Znth out r C0)
    /\ forall r', 0 <= r' -> r' <> r -> Znth out' r' C0 = Znth out r' C0.
Proof.
  intros Hout Hr.
  destruct (for_invariant
              (fun c cur =>
                 Z.of_nat (List.length cur) = m
                 /\ Znth cur r C0
                    = fold_left
                        (fun acc c => Cadd acc (Cmul (Znth mat (r * n + c) C0)
                                                     (Znth v_in c C0)))
                        (range 0 c) (Znth out r C0)
                 /\ forall r', 0 <= r' -> r' <> r ->
                               Znth cur r' C0 = Znth out r' C0)
              0 n
              (fun c v_out =>
                 a <- load mat (SizeT.add (SizeT.mul r n) c) ;;
                 x <- load v_in c ;;
                 y <- load v_out r ;;
                 store v_out r (Cadd y (Cmul a x)))
              out Hn) as (out' & Hrun & Hlen & Hrow & Hrest).
  - split; [assumption|]. split; [reflexivity|].
    intros r' _ _. reflexivity.
  - intros c cur Hc (Hlen & Hrow & Hrest).
    destruct (index_small r n c m Hr Hc Hsize) as [-> Hidx].
    rewrite (load_in mat _ C0), (load_in v_in _ C0), (load_in cur _ C0) by lia.
    cbn [bind]. rewrite store_in by lia.
    eexists. split; [reflexivity|]. split; [|split].
    + now rewrite update_length.
    + rewrite Znth_update_same by lia.
      rewrite range_snoc, fold_left_app by lia. simpl. now rewrite Hrow.
    + intros r' Hr' Hneq. rewrite Znth_update_other by lia. now apply Hrest.
  - exists out'. repeat split; assumption.
Qed.

(** One worker: the rows of [left, right) are accumulated, the others
    are left alone. *)
Lemma matrixVecProd_chunk (out : list C) (left right : Z) :
  Z.of_nat (List.length out) = m -> 0 <= left -> right <= m ->
  exists out',
    _matrixVecProd mat v_in out m n left right false = Ret out'
    /\ Z.of_nat (List.length out') = m
    /\ forall r, 0 <= r ->
         Znth out' r C0
         = if (left <=? r) && (r <? right)
           then row_accumulate mat v_in n r (Znth out r C0)
           else Znth out r C0.
Proof.
  intros Hout Hleft Hright. unfold _matrixVecProd.
  destruct (Z_le_gt_dec left right) as [Hle|Hgt].
  - destruct (for_invariant
                (fun i cur =>
                   Z.of_nat (List.length cur) = m
                   /\ forall r, 0 <= r ->
                        Znth cur r C0
                        = if (left <=? r) && (r <? i)
                          then row_accumulate mat v_in n r (Znth out r C0)
                          else Znth out r C0)
                left right
                (fun r v_out =>
                   for_ 0 n
                     (fun c v_out =>
                        a <- load mat (SizeT.add (SizeT.mul r n) c) ;;
                        x <- load v_in c ;;
                        y <- load v_out r ;;
                        store v_out r (Cadd y (Cmul a x)))
                     v_out)
                out Hle) as (out' & Hrun & Hlen & Hrows).
    + split; [assumption|]. intros r Hr.
      destruct (Z.leb_spec left r), (Z.ltb_spec r left); try lia; reflexivity.
    + intros j cur Hj (Hlen & Hrows).
      destruct (matrixVecProd_row cur j Hlen) as (cur' & -> & Hlen' & Hrow & Hrest);
        [lia|].
      exists cur'. split; [reflexivity|]. split; [assumption|].
      intros r Hr. destruct (Z.eq_dec r j) as [->|Hneq].
      * rewrite Hrow, (Hrows j) by lia.
        destruct (Z.leb_spec left j), (Z.ltb_spec j j), (Z.ltb_spec j (j + 1));
          try lia; reflexivity.
      * rewrite Hrest, (Hrows r) by lia.
        destruct (Z.leb_spec left r), (Z.ltb_spec r j), (Z.ltb_spec r (j + 1));
          try lia; reflexivity.
    + exists out'. repeat split; assumption.
  - rewrite for_empty by lia. exists out. split; [reflexivity|].
    split; [assumption|]. intros r Hr.
    destruct (Z.leb_spec left r), (Z.ltb_spec r right); try lia; reflexivity.
Qed.

(** The routine, without any assumption on the scalar arithmetic: each
    [v_out[r]] ends as its prior value with the terms of row [r] added one
    after the other. *)
Lemma matrixVecProd_row_accumulate (v_out : list C) (nthreads : Z)
  (sched : list Z) :
  Z.of_nat (List.length v_out) = m -> SizeT.in_range m ->
  1 <= nthreads -> Permutation sched (range 0 nthreads) ->
  exists out',
    matrixVecProd mat v_in (Some v_out) m n nthreads false sched
    = Ret (Some out')
    /\ Z.of_nat (List.length out') = m
    /\ forall r, 0 <= r < m ->
         Znth out' r C0 = row_accumulate mat v_in n r (Znth v_out r C0).
Proof.
  intros Hout Hrange Hthreads Hperm. unfold matrixVecProd.
  rewrite partition_closed_form by assumption. cbn [bind].
  destruct (workers_all C0 nthreads m m (fun r => r)
              (row_accumulate mat v_in n)
              (fun cur l r => _matrixVecProd mat v_in cur m n l r false)
              Hthreads Hrange) with (out0 := v_out) (sched := sched)
    as (out' & Hrun & Hlen & Hrows); try assumption.
  - intros r Hr. exact Hr.
  - intros cur left right Hcur Hleft Hright.
    destruct (matrixVecProd_chunk cur left right Hcur Hleft Hright)
      as (out & Hrun & Hlen & Hrows).
    exists out. split; [exact Hrun|]. split; [assumption|].
    intros r Hr. apply Hrows. lia.
  - cbv beta in Hrun. rewrite Hrun. cbn [bind].
    exists out'. split; [reflexivity|]. split; assumption.
Qed.

End MatrixVector.

Section ExactMatrixVector.

Context {T : Type} {ST : Scalar T}.
Hypothesis Tring : ring_theory zero one add mul sub opp (@eq T).

Local Abbreviation C := (complex T).



End ExactMatrixVector.


(** ** Transpose *)

Ltac compare_cases :=
  repeat match goal with
         | |- context [?a <=? ?b] => destruct (Z.leb_spec a b)
         | |- context [?a <? ?b] => destruct (Z.ltb_spec a b)
         end;
  cbn [andb orb]; try reflexivity; try lia.

Lemma in_block_rows (m m1 r2 m2 n1 n2 j : Z) :
  m1 <= r2 <= m2 ->
  in_block m m1 m2 n1 n2 j
  = in_block m m1 r2 n1 n2 j || in_block m r2 m2 n1 n2 j.
Proof. intros Hle. unfold in_block. compare_cases. Qed.

Lemma in_block_columns (m m1 m2 n1 s2 n2 j : Z) :
  n1 <= s2 <= n2 ->
  in_block m m1 m2 n1 n2 j
  = in_block m m1 m2 n1 s2 j || in_block m m1 m2 s2 n2 j.
Proof. intros Hle. unfold in_block. compare_cases. Qed.

Lemma in_block_no_rows (m m1 n1 n2 j : Z) : in_block m m1 m1 n1 n2 j = false.
Proof. unfold in_block. compare_cases. Qed.

Lemma in_block_no_columns (m m1 m2 n1 j : Z) : in_block m m1 m2 n1 n1 j = false.
Proof. unfold in_block. compare_cases. Qed.

Lemma cell_index (m r s : Z) :
  0 <= r < m -> (s * m + r) mod m = r /\ (s * m + r) / m = s.
Proof.
  intros Hr. rewrite Z.add_comm.
  rewrite Z.mod_add, Z.div_add, Z.mod_small, Z.div_small by lia. lia.
Qed.

Lemma in_block_cell (m r s j : Z) :
  0 <= r < m ->
  in_block m r (r + 1) s (s + 1) j = true <-> j = s * m + r.
Proof.
  intros Hr. unfold in_block.
  rewrite !andb_true_iff, !Z.leb_le, !Z.ltb_lt. split.
  - intros Hj. rewrite (Z.div_mod j m) at 1 by lia. nia.
  - intros ->. destruct (cell_index m r s Hr) as [-> ->]. lia.
Qed.

Lemma midpoint (a b : Z) : a + 1 < b -> a < (a + b) / 2 < b.
Proof.
  intros Hab.
  pose proof (Z.div_mod (a + b) 2 ltac:(lia)).
  pose proof (Z.mod_pos_bound (a + b) 2 ltac:(lia)). lia.
Qed.

Section Transposition.

Context {T : Type}.

Local Abbreviation C := (complex T).

Variable d : C.
Variables (mat : list C) (m n : Z).
Hypothesis Hm : 0 <= m < 2 ^ 63.
Hypothesis Hn : 0 <= n < 2 ^ 63.
Hypothesis Hsize : m * n < SizeT.modulus.
Hypothesis Hmat : Z.of_nat (List.length mat) = m * n.

Lemma block_written_nothing (m1 m2 n1 n2 : Z) (start : list C) :
  m2 = m1 \/ n2 = n1 -> block_written d mat m n m1 m2 n1 n2 start start.
Proof.
  intros Hempty. split; [reflexivity|]. intros j _.
  destruct Hempty as [-> | ->].
  - now rewrite in_block_no_rows.
  - now rewrite in_block_no_columns.
Qed.

(** Writing one part of a block and then the rest writes the block. *)
Lemma block_written_then (a1 a2 b1 b2 c1 c2 e1 e2 m1 m2 n1 n2 : Z)
  (start mid out : list C) :
  (forall j, in_block m m1 m2 n1 n2 j
             = in_block m a1 a2 b1 b2 j || in_block m c1 c2 e1 e2 j) ->
  block_written d mat m n a1 a2 b1 b2 start mid ->
  block_written d mat m n c1 c2 e1 e2 mid out ->
  block_written d mat m n m1 m2 n1 n2 start out.
Proof.
  intros Hsplit [Hlen1 Hmid] [Hlen2 Hout]. split; [congruence|].
  intros j Hj. rewrite Hout, Hmid, Hsplit by assumption.
  destruct (in_block m a1 a2 b1 b2 j), (in_block m c1 c2 e1 e2 j); reflexivity.
Qed.

(** The result of writing a block is determined by the block. *)
Lemma block_written_unique (m1 m2 n1 n2 : Z) (start out out' : list C) :
  Z.of_nat (List.length start) = m * n ->
  block_written d mat m n m1 m2 n1 n2 start out ->
  block_written d mat m n m1 m2 n1 n2 start out' ->
  out = out'.
Proof.
  intros Hstart [Hlen Hout] [Hlen' Hout'].
  apply (nth_ext out out' d d); [congruence|].
  intros i Hi.
  assert (Hj : 0 <= Z.of_nat i < m * n) by lia.
  specialize (Hout _ Hj). specialize (Hout' _ Hj).
  unfold Znth in Hout, Hout'. rewrite Nat2Z.id in Hout, Hout'. congruence.
Qed.

(** The assignment [mat_t[s * m + r] = mat[r * n + s]]. *)
Lemma transpose_cell (cur : list C) (r s : Z) :
  Z.of_nat (List.length cur) = m * n -> 0 <= r < m -> 0 <= s < n ->
  exists out,
    (x <- load mat (SizeT.add (SizeT.mul r n) s) ;;
     store cur (SizeT.add (SizeT.mul s m) r) x) = Ret out
    /\ block_written d mat m n r (r + 1) s (s + 1) cur out.
Proof.
  intros Hcur Hr Hs.
  destruct (index_small r n s m Hr Hs Hsize) as [-> Hsrc].
  destruct (index_small s m r n Hs Hr) as [-> Hdst]; [lia|].
  rewrite (load_in mat _ d) by lia. cbn [bind]. rewrite store_in by lia.
  eexists. split; [reflexivity|]. split; [apply update_length|].
  intros j Hj.
  destruct (in_block m r (r + 1) s (s + 1) j) eqn:Hin.
  - apply in_block_cell in Hin; [|lia]. subst j.
    rewrite Znth_update_same by lia.
    destruct (cell_index m r s Hr) as [-> ->]. reflexivity.
  - apply Znth_update_other; try lia.
    intros <-. rewrite (proj2 (in_block_cell m r s _ ltac:(lia))) in Hin;
      [discriminate|reflexivity].
Qed.

(** The inner loop: row [r], columns [n1, n2). *)
Lemma transpose_row (cur : list C) (r n1 n2 : Z) :
  Z.of_nat (List.length cur) = m * n ->
  0 <= r < m -> 0 <= n1 <= n2 -> n2 <= n ->
  exists out,
    for_ n1 n2
      (fun s mat_t =>
         x <- load mat (SizeT.add (SizeT.mul r n) s) ;;
         store mat_t (SizeT.add (SizeT.mul s m) r) x)
      cur = Ret out
    /\ block_written d mat m n r (r + 1) n1 n2 cur out.
Proof.
  intros Hcur Hr Hn1 Hn2.
  apply (for_invariant
           (fun s out => block_written d mat m n r (r + 1) n1 s cur out)).
  - lia.
  - apply block_written_nothing. now right.
  - intros s mid Hs Hmid.
    destruct (transpose_cell mid r s) as (out & Hrun & Hout); try lia.
    { destruct Hmid as [Hlen _]. lia. }
    exists out. split; [exact Hrun|].
    apply (block_written_then r (r + 1) n1 s r (r + 1) s (s + 1)
             r (r + 1) n1 (s + 1) cur mid out); try assumption.
    intros j. apply in_block_columns. lia.
Qed.

(** The two loops of the last branch. *)
Lemma transpose_block_written (cur : list C) (m1 m2 n1 n2 : Z) :
  Z.of_nat (List.length cur) = m * n ->
  0 <= m1 <= m2 -> m2 <= m -> 0 <= n1 <= n2 -> n2 <= n ->
  exists out,
    transpose_block mat cur m n m1 m2 n1 n2 = Ret out
    /\ block_written d mat m n m1 m2 n1 n2 cur out.
Proof.
  intros Hcur Hm1 Hm2 Hn1 Hn2. unfold transpose_block.
  apply (for_invariant
           (fun r out => block_written d mat m n m1 r n1 n2 cur out)).
  - lia.
  - apply block_written_nothing. now left.
  - intros r mid Hr Hmid.
    destruct (transpose_row mid r n1 n2) as (out & Hrun & Hout); try lia.
    { destruct Hmid as [Hlen _]. lia. }
    exists out. split; [exact Hrun|].
    apply (block_written_then m1 r n1 n2 r (r + 1) n1 n2
             m1 (r + 1) n1 n2 cur mid out); try assumption.
    intros j. apply in_block_rows. lia.
Qed.

(** The recursion: with more fuel than the number of rows and columns of
    the block, [CFTranspose] returns, with the block written. *)
Lemma CFTranspose_block_written (fuel : nat) :
  forall (cur : list C) (m1 m2 n1 n2 : Z),
    Z.of_nat (List.length cur) = m * n ->
    0 <= m1 <= m2 -> m2 <= m -> 0 <= n1 <= n2 -> n2 <= n ->
    (m2 - m1) + (n2 - n1) < Z.of_nat fuel ->
    exists out,
      CFTranspose fuel mat cur m n m1 m2 n1 n2 = Ret out
      /\ block_written d mat m n m1 m2 n1 n2 cur out.
Proof.
  pose proof modulus_eq as Hmod.
  induction fuel as [|fuel IH]; intros cur m1 m2 n1 n2 Hcur Hm1 Hm2 Hn1 Hn2 Hfuel;
    [lia|].
  cbn [CFTranspose]. unfold BLOCK_THRESHOLD.
  rewrite !sub_small, !add_small by (unfold SizeT.in_range; lia).
  rewrite Z.geb_leb, !Z.gtb_ltb.
  destruct (Z.leb_spec (n2 - n1) (m2 - m1)) as [Hrows|Hcols];
    [destruct (Z.ltb_spec 16 (m2 - m1)) as [Hbig|Hsmall]|]; cbn [andb].
  - assert (Hr2 : m1 < (m1 + m2) / 2 < m2) by (apply midpoint; lia).
    destruct (IH cur m1 ((m1 + m2) / 2) n1 n2) as (mid & -> & Hmid); try lia.
    cbn [bind].
    destruct (IH mid ((m1 + m2) / 2) m2 n1 n2) as (out & -> & Hout); try lia.
    { destruct Hmid as [Hlen _]. lia. }
    exists out. split; [reflexivity|].
    apply (block_written_then m1 ((m1 + m2) / 2) n1 n2 ((m1 + m2) / 2) m2 n1 n2
             m1 m2 n1 n2 cur mid out); try assumption.
    intros j. apply in_block_rows. lia.
  - destruct (Z.ltb_spec 16 (n2 - n1)); [lia|].
    now apply transpose_block_written.
  - destruct (Z.ltb_spec 16 (n2 - n1)) as [Hbig|Hsmall].
    + assert (Hs2 : n1 < (n1 + n2) / 2 < n2) by (apply midpoint; lia).
      destruct (IH cur m1 m2 n1 ((n1 + n2) / 2)) as (mid & -> & Hmid); try lia.
      cbn [bind].
      destruct (IH mid m1 m2 ((n1 + n2) / 2) n2) as (out & -> & Hout); try lia.
      { destruct Hmid as [Hlen _]. lia. }
      exists out. split; [reflexivity|].
      apply (block_written_then m1 m2 n1 ((n1 + n2) / 2) m1 m2 ((n1 + n2) / 2) n2
               m1 m2 n1 n2 cur mid out); try assumption.
      intros j. apply in_block_columns. lia.
    + now apply transpose_block_written.
Qed.

(** Inside the buffers the naive double loop computes the same indices as
    the loops of the blocked routine run on the whole matrix. *)
Lemma naive_transpose_whole_block (mat_t : list C) :
  naive_transpose mat mat_t m n = transpose_block mat mat_t m n 0 m 0 n.
Proof.
  unfold naive_transpose, transpose_block.
  apply for_ext. intros r cur Hr. apply for_ext. intros s cur' Hs.
  destruct (index_small r n s m Hr Hs Hsize) as [-> _].
  destruct (index_small s m r n Hs Hr) as [-> _]; [lia|]. reflexivity.
Qed.

(** C4: on an [m * n] matrix [Transpose] returns (given fuel for its
    recursion), the buffer it leaves is the one the naive double loop leaves,
    and it holds [mat[r * n + s]] at [s * m + r] for every [r < m] and
    [s < n]; [m] or [n] may be 0, below the block threshold or not a
    multiple of it. *)
Theorem Transpose_is_naive_transpose (mat_t : list C) (fuel : nat) :
  Z.of_nat (List.length mat_t) = m * n ->
  m + n < Z.of_nat fuel ->
  exists out,
    Transpose fuel mat mat_t m n = Ret out
    /\ naive_transpose mat mat_t m n = Ret out
    /\ List.length out = List.length mat_t
    /\ forall r s, 0 <= r < m -> 0 <= s < n ->
         Znth out (s * m + r) d = Znth mat (r * n + s) d.
Proof.
  intros Hmat_t Hfuel. unfold Transpose.
  destruct (CFTranspose_block_written fuel mat_t 0 m 0 n)
    as (out & Hrun & Hout); try lia.
  destruct (transpose_block_written mat_t 0 m 0 n)
    as (out' & Hrun' & Hout'); try lia.
  exists out. split; [exact Hrun|]. split; [|split].
  - rewrite naive_transpose_whole_block, Hrun'. f_equal.
    now apply (block_written_unique 0 m 0 n mat_t).
  - apply Hout.
  - intros r s Hr Hs. destruct Hout as [_ Hout].
    rewrite Hout by nia.
    destruct (cell_index m r s Hr) as [Hmod Hdiv].
    unfold in_block. rewrite Hmod, Hdiv.
    replace ((0 <=? r) && (r <? m) && (0 <=? s) && (s <? n)) with true
      by compare_cases.
    reflexivity.
Qed.

End Transposition.

Lemma Transpose_is_naive_transpose_witness :
  let mat := [Complex 1 0; Complex 2 0; Complex 3 0;
              Complex 4 0; Complex 5 0; Complex 6 0] in
  let mat_t := repeat (Complex 0 0) 6 in
  exists out,
    Transpose 6 mat mat_t 2 3 = Ret out
    /\ naive_transpose mat mat_t 2 3 = Ret out
    /\ List.length out = List.length mat_t
    /\ forall r s, 0 <= r < 2 -> 0 <= s < 3 ->
         Znth out (s * 2 + r) (Complex 0 0) = Znth mat (r * 3 + s) (Complex 0 0).
Proof.
  apply (@Transpose_is_naive_transpose Z (Complex 0 0)); try reflexivity; lia.
Defined.

(** ** Matrix-matrix product *)

Ltac index_cases :=
  repeat match goal with
         | |- context [?a <=? ?b] => destruct (Z.leb_spec a b)
         | |- context [?a <? ?b] => destruct (Z.ltb_spec a b)
         | |- context [?a =? ?b] => destruct (Z.eqb_spec a b)
         end;
  cbn [andb orb]; try reflexivity; try lia.

Section MatrixMatrix.

Context {T : Type} {ST : Scalar T}.

Local Abbreviation C := (complex T).

Variables (m_left m_right : list C) (m n k : Z).
Hypothesis Hm : 0 <= m.
Hypothesis Hn : 0 <= n.
Hypothesis Hk : 0 <= k.
Hypothesis Hleft : Z.of_nat (List.length m_left) = m * k.
Hypothesis Hsize_left : m * k < SizeT.modulus.
Hypothesis Hsize_out : m * n < SizeT.modulus.

(** The index read in [m_right] for the term [b] of column [c]; the two
    kernels differ only in it. *)
Variable right_index : Z -> Z -> Z.
Hypothesis Hright :
  forall b c, 0 <= b < k -> 0 <= c < n ->
              0 <= right_index b c < Z.of_nat (List.length m_right).

(** The innermost loop: the [k] terms of cell [(r, c)]. *)
Lemma product_cell_loop (cur : list C) (r c : Z) :
  Z.of_nat (List.length cur) = m * n -> 0 <= r < m -> 0 <= c < n ->
  exists out,
    for_ 0 k
      (fun b m_out =>
         x <- load m_left (SizeT.add (SizeT.mul r k) b) ;;
         y <- load m_right (right_index b c) ;;
         z <- load m_out (SizeT.add (SizeT.mul r n) c) ;;
         store m_out (SizeT.add (SizeT.mul r n) c) (Cadd z (Cmul x y)))
      cur = Ret out
    /\ Z.of_nat (List.length out) = m * n
    /\ Znth out (r * n + c) C0
       = cell_accumulate m_left m_right k r (fun b => right_index b c)
           (Znth cur (r * n + c) C0)
    /\ forall j, 0 <= j -> j <> r * n + c -> Znth out j C0 = Znth cur j C0.
Proof.
  intros Hcur Hr Hc.
  destruct (index_small r n c m Hr Hc Hsize_out) as [Hidx Hcell].
  rewrite Hidx.
  apply (for_invariant
           (fun b out =>
              Z.of_nat (List.length out) = m * n
              /\ Znth out (r * n + c) C0
                 = fold_left
                     (fun acc b => Cadd acc (Cmul (Znth m_left (r * k + b) C0)
                                                  (Znth m_right (right_index b c) C0)))
                     (range 0 b) (Znth cur (r * n + c) C0)
              /\ forall j, 0 <= j -> j <> r * n + c ->
                           Znth out j C0 = Znth cur j C0)).
  - exact Hk.
  - split; [assumption|]. split; [reflexivity|]. intros j _ _. reflexivity.
  - intros b mid Hb (Hlen & Hcellv & Hrest).
    destruct (index_small r k b m Hr Hb Hsize_left) as [-> Hl].
    rewrite (load_in m_left _ C0), (load_in m_right _ C0), (load_in mid _ C0)
      by (try apply Hright; lia).
    cbn [bind]. rewrite store_in by lia.
    eexists. split; [reflexivity|]. split; [|split].
    + now rewrite update_length.
    + rewrite Znth_update_same by lia.
      rewrite range_snoc, fold_left_app by lia. simpl. now rewrite Hcellv.
    + intros j Hj Hneq. rewrite Znth_update_other by lia. now apply Hrest.
Qed.

(** The middle loop: the cells of row [r]. *)
Lemma product_row_loop (cur : list C) (r : Z) :
  Z.of_nat (List.length cur) = m * n -> 0 <= r < m ->
  exists out,
    for_ 0 n
      (fun c m_out =>
         for_ 0 k
           (fun b m_out =>
              x <- load m_left (SizeT.add (SizeT.mul r k) b) ;;
              y <- load m_right (right_index b c) ;;
              z <- load m_out (SizeT.add (SizeT.mul r n) c) ;;
              store m_out (SizeT.add (SizeT.mul r n) c) (Cadd z (Cmul x y)))
           m_out)
      cur = Ret out
    /\ Z.of_nat (List.length out) = m * n
    /\ forall j, 0 <= j < m * n ->
         Znth out j C0
         = if j / n =? r
           then cell_accumulate m_left m_right k r
                  (fun b => right_index b (j mod n)) (Znth cur j C0)
           else Znth cur j C0.
Proof.
  intros Hcur Hr.
  destruct (for_invariant
              (fun c out =>
                 Z.of_nat (List.length out) = m * n
                 /\ forall j, 0 <= j < m * n ->
                      Znth out j C0
                      = if (j / n =? r) && (j mod n <? c)
                        then cell_accumulate m_left m_right k r
                               (fun b => right_index b (j mod n)) (Znth cur j C0)
                        else Znth cur j C0)
              0 n
              (fun c m_out =>
                 for_ 0 k
                   (fun b m_out =>
                      x <- load m_left (SizeT.add (SizeT.mul r k) b) ;;
                      y <- load m_right (right_index b c) ;;
                      z <- load m_out (SizeT.add (SizeT.mul r n) c) ;;
                      store m_out (SizeT.add (SizeT.mul r n) c)
                            (Cadd z (Cmul x y)))
                   m_out)
              cur Hn) as (out & Hrun & Hlen & Hcells).
  - split; [assumption|]. intros j Hj.
    assert (0 <= j mod n) by (apply Z.mod_pos_bound; nia).
    index_cases.
  - intros c mid Hc (Hlen & Hcells).
    destruct (product_cell_loop mid r c Hlen Hr Hc)
      as (out & Hrun & Hlen' & Hcell & Hrest).
    exists out. split; [exact Hrun|]. split; [assumption|].
    intros j Hj.
    destruct (cell_index n c r Hc) as [Hmod Hdiv].
    destruct (Z.eq_dec j (r * n + c)) as [->|Hneq].
    + rewrite Hcell, Hcells, Hmod, Hdiv by nia. index_cases.
    + rewrite Hrest, Hcells by lia.
      assert (j / n = r -> j mod n <> c)
        by (intros Hd Hmd; apply Hneq; rewrite (Z.div_mod j n) by lia; nia).
      index_cases.
  - exists out. split; [exact Hrun|]. split; [assumption|].
    intros j Hj. rewrite Hcells by assumption.
    assert (j mod n < n) by (apply Z.mod_pos_bound; nia).
    index_cases.
Qed.

(** The outer loop: the rows [left, right) of one worker. *)
Lemma product_rows_loop (cur : list C) (left right : Z) :
  Z.of_nat (List.length cur) = m * n -> 0 <= left -> right <= m ->
  exists out,
    for_ left right
      (fun r m_out =>
         for_ 0 n
           (fun c m_out =>
              for_ 0 k
                (fun b m_out =>
                   x <- load m_left (SizeT.add (SizeT.mul r k) b) ;;
                   y <- load m_right (right_index b c) ;;
                   z <- load m_out (SizeT.add (SizeT.mul r n) c) ;;
                   store m_out (SizeT.add (SizeT.mul r n) c)
                         (Cadd z (Cmul x y)))
                m_out)
           m_out)
      cur = Ret out
    /\ Z.of_nat (List.length out) = m * n
    /\ forall j, 0 <= j < m * n ->
         Znth out j C0
         = if (left <=? j / n) && (j / n <? right)
           then cell_accumulate m_left m_right k (j / n)
                  (fun b => right_index b (j mod n)) (Znth cur j C0)
           else Znth cur j C0.
Proof.
  intros Hcur Hl Hr.
  destruct (Z_le_gt_dec left right) as [Hle|Hgt].
  - apply (for_invariant
             (fun i out =>
                Z.of_nat (List.length out) = m * n
                /\ forall j, 0 <= j < m * n ->
                     Znth out j C0
                     = if (left <=? j / n) && (j / n <? i)
                       then cell_accumulate m_left m_right k (j / n)
                              (fun b => right_index b (j mod n)) (Znth cur j C0)
                       else Znth cur j C0)).
    + exact Hle.
    + split; [assumption|]. intros j Hj. index_cases.
    + intros i mid Hi (Hlen & Hrows).
      destruct (product_row_loop mid i Hlen) as (out & Hrun & Hlen' & Hrow);
        [lia|].
      exists out. split; [exact Hrun|]. split; [assumption|].
      intros j Hj. rewrite Hrow, Hrows by assumption.
      destruct (Z.eqb_spec (j / n) i) as [->|Hneq]; index_cases.
  - rewrite for_empty by lia. exists cur. split; [reflexivity|].
    split; [assumption|]. intros j Hj. index_cases.
Qed.

(** All the workers: every cell ends accumulated, whatever their order. *)
Lemma product_workers (m_out : list C) (nthreads : Z) (sched : list Z) :
  Z.of_nat (List.length m_out) = m * n -> SizeT.in_range m ->
  1 <= nthreads -> Permutation sched (range 0 nthreads) ->
  exists out',
    run_threads
      (fun i out =>
         l <- load (map (boundary nthreads m) (range 0 (nthreads + 1))) i ;;
         r <- load (map (boundary nthreads m) (range 0 (nthreads + 1))) (i + 1) ;;
         for_ l r
           (fun r m_out =>
              for_ 0 n
                (fun c m_out =>
                   for_ 0 k
                     (fun b m_out =>
                        x <- load m_left (SizeT.add (SizeT.mul r k) b) ;;
                        y <- load m_right (right_index b c) ;;
                        z <- load m_out (SizeT.add (SizeT.mul r n) c) ;;
                        store m_out (SizeT.add (SizeT.mul r n) c)
                              (Cadd z (Cmul x y)))
                     m_out)
                m_out)
           out)
      sched m_out = Ret out'
    /\ Z.of_nat (List.length out') = m * n
    /\ forall r c, 0 <= r < m -> 0 <= c < n ->
         Znth out' (r * n + c) C0
         = cell_accumulate m_left m_right k r (fun b => right_index b c)
             (Znth m_out (r * n + c) C0).
Proof.
  intros Hout Hrange Hthreads Hperm.
  destruct (workers_all C0 nthreads m (m * n) (fun j => j / n)
              (fun j => cell_accumulate m_left m_right k (j / n)
                          (fun b => right_index b (j mod n)))
              (fun cur l r =>
                 for_ l r
                   (fun r m_out =>
                      for_ 0 n
                        (fun c m_out =>
                           for_ 0 k
                             (fun b m_out =>
                                x <- load m_left (SizeT.add (SizeT.mul r k) b) ;;
                                y <- load m_right (right_index b c) ;;
                                z <- load m_out (SizeT.add (SizeT.mul r n) c) ;;
                                store m_out (SizeT.add (SizeT.mul r n) c)
                                      (Cadd z (Cmul x y)))
                             m_out)
                        m_out)
                   cur)
              Hthreads Hrange) with (out0 := m_out) (sched := sched)
    as (out' & Hrun & Hlen & Hcells); try assumption.
  - intros j Hj. split.
    + apply Z.div_pos; nia.
    + apply Z.div_lt_upper_bound; nia.
  - intros cur left right. apply product_rows_loop.
  - cbv beta in Hrun. exists out'. split; [exact Hrun|]. split; [assumption|].
    intros r c Hr Hc.
    destruct (cell_index n c r Hc) as [Hmod Hdiv].
    rewrite Hcells by nia. now rewrite Hmod, Hdiv.
Qed.

End MatrixMatrix.

Section ExactMatrixMatrix.

Context {T : Type} {ST : Scalar T}.
Hypothesis Tring : ring_theory zero one add mul sub opp (@eq T).

Local Abbreviation C := (complex T).

Variables (m_left m_right m_out : list C) (m n k nthreads : Z).
Variable sched : list Z.
Hypothesis Hm : 0 <= m.
Hypothesis Hn : 0 <= n.
Hypothesis Hk : 0 <= k.
Hypothesis Hleft : Z.of_nat (List.length m_left) = m * k.
Hypothesis Hright : Z.of_nat (List.length m_right) = k * n.
Hypothesis Hout : Z.of_nat (List.length m_out) = m * n.
Hypothesis Hsize_left : m * k < SizeT.modulus.
Hypothesis Hsize_right : k * n < SizeT.modulus.
Hypothesis Hsize_out : m * n < SizeT.modulus.
Hypothesis Hrange : SizeT.in_range m.
Hypothesis Hthreads : 1 <= nthreads.
Hypothesis Hperm : Permutation sched (range 0 nthreads).

Lemma cell_accumulate_sum (r : Z) (right_index index : Z -> Z) (a : C) :
  (forall b, 0 <= b < k -> right_index b = index b) ->
  cell_accumulate m_left m_right k r right_index a
  = Cadd a (Csum (fun b => Cmul (Znth m_left (r * k + b) C0)
                                (Znth m_right (index b) C0)) 0 k).
Proof.
  intros Hindex. unfold cell_accumulate.
  rewrite (fold_Cadd_start Tring). f_equal.
  apply (Csum_ext (fun b => Cmul (Znth m_left (r * k + b) C0)
                                 (Znth m_right (right_index b) C0))).
  intros b Hb. now rewrite Hindex by lia.
Qed.

(** X15: with [transpose = true] the routine runs [_matrixMatProd]: in exact
    arithmetic it adds the matrix product to [m_out], cell by cell, whatever
    the number of workers and their order. *)
Lemma matrixMatProd_transpose_true_adds_product :
  exists out',
    matrixMatProd m_left m_right (Some m_out) m n k nthreads true sched
    = Ret (Some out')
    /\ List.length out' = List.length m_out
    /\ forall r c, 0 <= r < m -> 0 <= c < n ->
         Znth out' (r * n + c) C0
         = Cadd (Znth m_out (r * n + c) C0)
                (product_cell m_left m_right n k r c).
Proof.
  unfold matrixMatProd. rewrite partition_closed_form by assumption.
  cbn [bind]. unfold _matrixMatProd.
  destruct (product_workers m_left m_right m n k)
    with (right_index := fun b c => SizeT.add (SizeT.mul b n) c)
         (m_out := m_out) (nthreads := nthreads) (sched := sched)
    as (out' & Hrun & Hlen & Hcells); try assumption.
  - intros b c Hb Hc.
    destruct (index_small b n c k Hb Hc Hsize_right) as [-> Hidx]. lia.
  - cbv beta in Hrun. rewrite Hrun. cbn [bind].
    exists out'. split; [reflexivity|]. split; [lia|].
    intros r c Hr Hc. rewrite Hcells by assumption.
    apply cell_accumulate_sum. intros b Hb.
    now destruct (index_small b n c k Hb Hc Hsize_right) as [-> _].
Qed.

(** X16: with [transpose = false] the routine runs [_matrixMatProd_tp]: when
    its reads stay inside [m_right] (here, [n <= k]) it adds to cell [(r, c)]
    the sum over [b < k] of [m_left[r * k + b] * m_right[c * n + b]]. *)
Lemma matrixMatProd_transpose_false_adds_transposed_reads :
  n <= k ->
  exists out',
    matrixMatProd m_left m_right (Some m_out) m n k nthreads false sched
    = Ret (Some out')
    /\ List.length out' = List.length m_out
    /\ forall r c, 0 <= r < m -> 0 <= c < n ->
         Znth out' (r * n + c) C0
         = Cadd (Znth m_out (r * n + c) C0)
                (Csum (fun b => Cmul (Znth m_left (r * k + b) C0)
                                     (Znth m_right (c * n + b) C0)) 0 k).
Proof.
  intros Hnk.
  assert (Hidx : forall b c, 0 <= b < k -> 0 <= c < n ->
                   SizeT.add (SizeT.mul c n) b = c * n + b
                   /\ 0 <= c * n + b < k * n).
  { intros b c Hb Hc. assert (0 <= c * n + b < k * n) by nia.
    split; [|assumption].
    rewrite mul_small by (unfold SizeT.in_range; nia).
    apply add_small. unfold SizeT.in_range. lia. }
  unfold matrixMatProd. rewrite partition_closed_form by assumption.
  cbn [bind]. unfold _matrixMatProd_tp.
  destruct (product_workers m_left m_right m n k)
    with (right_index := fun b c => SizeT.add (SizeT.mul c n) b)
         (m_out := m_out) (nthreads := nthreads) (sched := sched)
    as (out' & Hrun & Hlen & Hcells); try assumption.
  - intros b c Hb Hc. destruct (Hidx b c Hb Hc) as [-> Hin]. lia.
  - cbv beta in Hrun. rewrite Hrun. cbn [bind].
    exists out'. split; [reflexivity|]. split; [lia|].
    intros r c Hr Hc. rewrite Hcells by assumption.
    apply cell_accumulate_sum. intros b Hb.
    now destruct (Hidx b c Hb Hc) as [-> _].
Qed.

End ExactMatrixMatrix.

(** With [n > k] the kernel run for [transpose = false] reads [m_right]
    past its end: here a 1x1 matrix times a 1x2 matrix. *)
Lemma matrixMatProd_transpose_false_reads_past_the_end :
  matrixMatProd [Complex 1 0] [Complex 1 0; Complex 2 0]
    (Some [Complex 0 0; Complex 0 0]) 1 2 1 1 false [0]
  = Undefined.
Proof. reflexivity. Qed.

(** C2 at a concrete input: a 1x2 matrix times a 2x2 matrix, one worker,
    [m_out] zeroed.  With [transpose = false] the routine runs
    [_matrixMatProd_tp], which reads [m_right[c * n + b]], and leaves
    [(1, 3)]; the matrix product is [(1, 2)], which is what the routine
    leaves with [transpose = true]. *)
Theorem matrixMatProd_not_transposed_reads_right_operand_transposed :
  let m_left := [Complex 1 0; Complex 0 0] in
  let m_right := [Complex 1 0; Complex 2 0; Complex 3 0; Complex 4 0] in
  let m_out := [Complex 0 0; Complex 0 0] in
  matrixMatProd m_left m_right (Some m_out) 1 2 2 1 false [0]
  = Ret (Some [Complex 1 0; Complex 3 0])
  /\ Cadd (Znth m_out 0 C0) (product_cell m_left m_right 2 2 0 0) = Complex 1 0
  /\ Cadd (Znth m_out 1 C0) (product_cell m_left m_right 2 2 0 1) = Complex 2 0
  /\ matrixMatProd m_left m_right (Some m_out) 1 2 2 1 true [0]
     = Ret (Some [Complex 1 0; Complex 2 0]).
Proof. repeat split. Qed.

(** * Further properties of the kernels *)

(** ** Chunks of [partition] *)

(** X1: of the [n] chunks of [partition(n, data_size)], the first [n - 1]
    hold [data_size / n] indices each and the last holds the remainder as
    well: [data_size / n + data_size % n] indices. *)
Theorem partition_chunk_sizes (n data_size : Z) :
  1 <= n -> SizeT.in_range data_size ->
  exists bnd,
    partition n data_size = Ret bnd
    /\ (forall i, 0 <= i < n - 1 ->
          Znth bnd (i + 1) 0 - Znth bnd i 0 = data_size / n)
    /\ Znth bnd n 0 - Znth bnd (n - 1) 0 = data_size / n + data_size mod n.
Proof.
  intros Hn Hd.
  exists (map (boundary n data_size) (range 0 (n + 1))).
  split; [now apply partition_closed_form|]. split.
  - intros i Hi. rewrite !partition_Znth by lia.
    rewrite !boundary_below by lia. lia.
  - rewrite !partition_Znth by lia.
    rewrite boundary_n, boundary_below by lia.
    rewrite (Z.mod_eq data_size n) by lia. lia.
Qed.

Lemma partition_chunk_sizes_witness :
  exists bnd,
    partition 3 10 = Ret bnd
    /\ (forall i, 0 <= i < 3 - 1 -> Znth bnd (i + 1) 0 - Znth bnd i 0 = 10 / 3)
    /\ Znth bnd 3 0 - Znth bnd (3 - 1) 0 = 10 / 3 + 10 mod 3.
Proof.
  apply (partition_chunk_sizes 3 10).
  - lia.
  - apply in_range_small. lia.
Defined.

(** ** The messages of [dimSize] *)

(** X2: the message of the exception of [dimSize] tells which test failed,
    in the order of the tests: below 4 entries the size is too small,
    whatever else it is; from 4 entries on, a size that is not a power of
    two is reported as such; a power of two that is twice a power of four is
    reported as not a perfect square. *)
Theorem dimSize_messages {A : Type} (data : list A) :
  SizeT.in_range (Z.of_nat (List.length data)) ->
  (Z.of_nat (List.length data) < 4 ->
   dimSize data = Throw (invalid_argument "The dataset must be at least 2x2"))
  /\ (4 <= Z.of_nat (List.length data) ->
      (forall j, 0 <= j -> Z.of_nat (List.length data) <> 2 ^ j) ->
      dimSize data = Throw (invalid_argument "The dataset must be a power of 2"))
  /\ (forall k, 1 <= k -> Z.of_nat (List.length data) = 2 * 4 ^ k ->
      dimSize data
      = Throw (invalid_argument "The dataset must be a perfect square")).
Proof.
  unfold dimSize, SizeT.in_range.
  set (s := Z.of_nat (List.length data)). intros Hs.
  split; [|split].
  - intros Hlt. destruct (Z.ltb_spec s 4); [reflexivity|lia].
  - intros Hge Hnot. destruct (Z.ltb_spec s 4); [lia|].
    rewrite sub_small by (unfold SizeT.in_range; lia).
    destruct (Z.eqb_spec s 0) as [|_]; [lia|]. cbn [orb].
    destruct (Z.eqb_spec (Z.land s (s - 1)) 0) as [Hland|_]; [|reflexivity].
    destruct (land_pred_zero_pow2 s) as (j & Hj & Hsj); [lia|assumption|].
    now destruct (Hnot j Hj).
  - intros k Hk Heq.
    assert (Hpow : s = 2 ^ (2 * k + 1)).
    { rewrite Heq, pow4_pow2, Z.pow_add_r by lia. change (2 ^ 1) with 2. lia. }
    assert (4 ^ 1 <= 4 ^ k) by (apply Z.pow_le_mono_r; lia).
    change (4 ^ 1) with 4 in *.
    destruct (Z.ltb_spec s 4); [lia|].
    rewrite sub_small by (unfold SizeT.in_range; lia).
    destruct (Z.eqb_spec s 0) as [|_]; [lia|]. cbn [orb].
    rewrite Hpow at 1 2. rewrite land_pred_pow2 by lia. cbn [Z.eqb negb].
    assert (Hroot : Z.sqrt s * Z.sqrt s <= s) by (apply Z.sqrt_spec; lia).
    pose proof (Z.sqrt_nonneg s) as Hroot0.
    rewrite mul_small by (unfold SizeT.in_range; nia).
    destruct (Z.eqb_spec (Z.sqrt s * Z.sqrt s) s) as [Hsq|_]; [|reflexivity].
    exfalso. apply (odd_pow2_not_square k ltac:(lia) (Z.sqrt s)). lia.
Qed.

Lemma dimSize_messages_witness :
  (Z.of_nat (List.length (repeat tt 8)) < 4 ->
   dimSize (repeat tt 8)
   = Throw (invalid_argument "The dataset must be at least 2x2"))
  /\ (4 <= Z.of_nat (List.length (repeat tt 8)) ->
      (forall j, 0 <= j -> Z.of_nat (List.length (repeat tt 8)) <> 2 ^ j) ->
      dimSize (repeat tt 8)
      = Throw (invalid_argument "The dataset must be a power of 2"))
  /\ (forall k, 1 <= k -> Z.of_nat (List.length (repeat tt 8)) = 2 * 4 ^ k ->
      dimSize (repeat tt 8)
      = Throw (invalid_argument "The dataset must be a perfect square")).
Proof.
  apply (dimSize_messages (repeat tt 8)).
  apply in_range_small. simpl. lia.
Defined.

(** ** [exp2], [log2] and [maxDecimalForQubit] *)

Lemma exp2_pow2 (n : Z) : 0 <= n < 64 -> exp2 n = Ret (2 ^ n).
Proof.
  intros Hn. unfold exp2.
  destruct (Z.ltb_spec n 64); [|lia].
  rewrite Z.shiftl_1_l, wrap_small; [reflexivity|].
  unfold SizeT.in_range, SizeT.modulus. split.
  - apply Z.pow_nonneg. lia.
  - apply Z.pow_lt_mono_r; lia.
Qed.

(** X3: below the width of [size_t], [exp2(n)] is [2^n] and [log2] takes it
    back to [n]; from 64 on the shift of [exp2] is undefined. *)
Theorem exp2_log2_round_trip (n : Z) :
  0 <= n ->
  (n < 64 -> exists v, exp2 n = Ret v /\ v = 2 ^ n /\ log2 v = n)
  /\ (64 <= n -> exp2 n = Undefined).
Proof.
  intros Hn. split.
  - intros Hlt. exists (2 ^ n). split; [apply exp2_pow2; lia|].
    split; [reflexivity|]. unfold log2. now apply Z.log2_pow2.
  - intros Hge. unfold exp2. destruct (Z.ltb_spec n 64); [lia|reflexivity].
Qed.

Lemma exp2_log2_round_trip_witness :
  (5 < 64 -> exists v, exp2 5 = Ret v /\ v = 2 ^ 5 /\ log2 v = 5)
  /\ (64 <= 5 -> exp2 5 = Undefined).
Proof. apply (exp2_log2_round_trip 5). lia. Defined.

Lemma maxDecimalForQubit_pow2 (NDEBUG : bool) (qubitIndex qubits : Z) :
  0 <= qubitIndex < qubits -> qubits <= 64 ->
  maxDecimalForQubit NDEBUG qubitIndex qubits
  = Continued (Ret (2 ^ (qubits - 1 - qubitIndex))).
Proof.
  intros Hi Hq. unfold maxDecimalForQubit.
  destruct (Z.ltb_spec qubitIndex qubits); [|lia].
  rewrite orb_true_r.
  rewrite (sub_small qubits qubitIndex)
    by (unfold SizeT.in_range; rewrite modulus_eq; lia).
  rewrite sub_small by (unfold SizeT.in_range; rewrite modulus_eq; lia).
  rewrite exp2_pow2 by lia. do 3 f_equal. lia.
Qed.

(** X4: for at most 64 qubits, [maxDecimalForQubit(i, qubits)] is
    [2^(qubits - 1 - i)] in the release and in the debug build: qubit 0 is
    the most significant bit, and of two qubits the later one has the
    smaller value, on a different bit. *)
Theorem maxDecimalForQubit_big_endian (NDEBUG : bool) (i j qubits : Z) :
  0 <= i < j -> j < qubits -> qubits <= 64 ->
  exists vi vj,
    maxDecimalForQubit NDEBUG i qubits = Continued (Ret vi)
    /\ maxDecimalForQubit NDEBUG j qubits = Continued (Ret vj)
    /\ vi = 2 ^ (qubits - 1 - i)
    /\ vj = 2 ^ (qubits - 1 - j)
    /\ 1 <= vj < vi
    /\ Z.land vi vj = 0.
Proof.
  intros Hij Hj Hq.
  exists (2 ^ (qubits - 1 - i)), (2 ^ (qubits - 1 - j)).
  split; [apply maxDecimalForQubit_pow2; lia|].
  split; [apply maxDecimalForQubit_pow2; lia|].
  split; [reflexivity|]. split; [reflexivity|]. split; [split|].
  - assert (0 < 2 ^ (qubits - 1 - j)) by (apply Z.pow_pos_nonneg; lia). lia.
  - apply Z.pow_lt_mono_r; lia.
  - apply Z.bits_inj'. intros b Hb.
    rewrite Z.land_spec, Z.bits_0, !Z.pow2_bits_eqb by lia.
    destruct (Z.eqb_spec (qubits - 1 - i) b), (Z.eqb_spec (qubits - 1 - j) b);
      try reflexivity; lia.
Qed.

Lemma maxDecimalForQubit_big_endian_witness :
  exists vi vj,
    maxDecimalForQubit false 0 3 = Continued (Ret vi)
    /\ maxDecimalForQubit false 2 3 = Continued (Ret vj)
    /\ vi = 2 ^ (3 - 1 - 0)
    /\ vj = 2 ^ (3 - 1 - 2)
    /\ 1 <= vj < vi
    /\ Z.land vi vj = 0.
Proof. apply (maxDecimalForQubit_big_endian false 0 2 3); lia. Defined.

(** ** The macros of [Error.hpp] *)

Lemma located_message_parts (message file_name : string) (line : Z)
  (function_name : string) :
  exists err_msg,
    Abort message file_name line function_name
    = Throw (LightningException err_msg)
    /\ contains err_msg file_name
    /\ contains err_msg (string_of_int line)
    /\ contains err_msg function_name
    /\ contains err_msg message.
Proof.
  eexists. split; [reflexivity|]. repeat split.
  - now exists "["%string,
      ("][Line:" ++ string_of_int line ++ "][Method:" ++ function_name
         ++ "]: Error in PennyLane Lightning: " ++ message)%string.
  - exists ("[" ++ file_name ++ "][Line:")%string,
      ("][Method:" ++ function_name
         ++ "]: Error in PennyLane Lightning: " ++ message)%string.
    rewrite !append_assoc. reflexivity.
  - exists ("[" ++ file_name ++ "][Line:" ++ string_of_int line
              ++ "][Method:")%string,
      ("]: Error in PennyLane Lightning: " ++ message)%string.
    rewrite !append_assoc. reflexivity.
  - exists ("[" ++ file_name ++ "][Line:" ++ string_of_int line
              ++ "][Method:" ++ function_name
              ++ "]: Error in PennyLane Lightning: ")%string, ""%string.
    rewrite append_empty_r, !append_assoc. reflexivity.
Qed.

(** X5: [PL_ASSERT(expression)] returns exactly when the expression holds;
    when it does not, it throws a [LightningException] whose [what()]
    contains ["Assertion failed: "] followed by the text of the expression,
    and the file, line and function of the place of use.  [PL_ABORT_IF] is
    [PL_ABORT_IF_NOT] of the negated expression. *)
Theorem PL_ASSERT_returns_iff_expression_holds
  (expression : bool) (expression_text file_name : string) (line : Z)
  (function_name : string) :
  (PL_ASSERT expression expression_text file_name line function_name = Ret tt
   <-> expression = true)
  /\ (expression = false ->
      exists err_msg,
        PL_ASSERT expression expression_text file_name line function_name
        = Throw (LightningException err_msg)
        /\ contains err_msg ("Assertion failed: " ++ expression_text)
        /\ contains err_msg file_name
        /\ contains err_msg (string_of_int line)
        /\ contains err_msg function_name)
  /\ (forall message,
        PL_ABORT_IF expression message file_name line function_name
        = PL_ABORT_IF_NOT (negb expression) message file_name line
            function_name).
Proof.
  split; [|split].
  - destruct expression; cbn; split; intros Heq; try reflexivity;
      discriminate.
  - intros ->. unfold PL_ASSERT, PL_ABORT_IF_NOT, PL_ABORT. cbn [negb].
    destruct (located_message_parts ("Assertion failed: " ++ expression_text)
                file_name line function_name)
      as (err_msg & Hthrow & Hfile & Hline & Hfunction & Hmessage).
    exists err_msg. repeat split; assumption.
  - intros message. now destruct expression.
Qed.

(** ** Complex constants and products *)

Section ExactConstants.

Context {T : Type} {ST : Scalar T}.
Hypothesis Tring : ring_theory zero one add mul sub opp (@eq T).

Add Ring Tring_constants : Tring.

Local Abbreviation C := (complex T).

(** X6: in exact arithmetic [ONE] is neutral for [ConstMult] and [ZERO]
    absorbs; [IMAG] squared is minus one; [ConstMult] commutes; its overload
    with a real first operand agrees with the complex one on a real number;
    and [ConstMultConj] of a number with itself is its squared magnitude, a
    real number. *)
Theorem ConstMult_constants (a b : C) (x : T) :
  ConstMult ONE b = b
  /\ ConstMult ZERO b = ZERO
  /\ ConstMult IMAG IMAG = Complex (- one)%T zero
  /\ ConstMult a b = ConstMult b a
  /\ ConstMult_real x b = ConstMult (Complex x zero) b
  /\ ConstMultConj a a = Complex (norm a) zero.
Proof.
  destruct a as [ar ai], b as [br bi].
  unfold ConstMult, ConstMult_real, ConstMultConj, ONE, ZERO, IMAG, norm.
  cbn [real imag].
  repeat split; f_equal; ring.
Qed.

End ExactConstants.

Lemma ConstMult_constants_witness :
  let a := Complex 2 3 in
  let b := Complex (-1) 4 in
  ConstMult ONE b = b
  /\ ConstMult ZERO b = ZERO
  /\ ConstMult IMAG IMAG = Complex (- one)%T zero
  /\ ConstMult a b = ConstMult b a
  /\ ConstMult_real 5 b = ConstMult (Complex 5 zero) b
  /\ ConstMultConj a a = Complex (norm a) zero.
Proof. apply (@ConstMult_constants Z Z_Scalar Zth). Defined.

(** ** Symmetry of the inner products *)

Section ExactSymmetry.

Context {T : Type} {ST : Scalar T}.
Hypothesis Tring : ring_theory zero one add mul sub opp (@eq T).

Add Ring Tring_symmetry : Tring.

Local Abbreviation C := (complex T).

Lemma Cmul_comm (a b : C) : Cmul a b = Cmul b a.
Proof. unfold Cmul. f_equal; ring. Qed.

Lemma conj_Cadd (a b : C) : conj (Cadd a b) = Cadd (conj a) (conj b).
Proof. unfold conj, Cadd. cbn [real imag]. f_equal. ring. Qed.

Lemma conj_C0 : conj (@C0 T ST) = C0.
Proof. unfold conj, C0. cbn [real imag]. f_equal. ring. Qed.

Lemma conj_Cmul_conj (a b : C) : conj (Cmul (conj a) b) = Cmul (conj b) a.
Proof. unfold conj, Cmul. cbn [real imag]. f_equal; ring. Qed.

Lemma conj_Csum (f : Z -> C) (lo hi : Z) :
  conj (Csum f lo hi) = Csum (fun i => conj (f i)) lo hi.
Proof.
  unfold Csum. rewrite <- conj_C0 at 2. generalize (@C0 T ST).
  induction (range lo hi) as [|i l IH]; intros acc; simpl.
  - reflexivity.
  - now rewrite IH, conj_Cadd.
Qed.

Lemma dot_comm (v1 v2 : list C) :
  List.length v1 = List.length v2 -> dot v1 v2 = dot v2 v1.
Proof.
  intros Hlen. unfold dot. rewrite Hlen.
  apply Csum_ext. intros i _. apply Cmul_comm.
Qed.

Lemma dotC_conj (v1 v2 : list C) :
  List.length v1 = List.length v2 -> dotC v2 v1 = conj (dotC v1 v2).
Proof.
  intros Hlen. unfold dotC. rewrite conj_Csum, Hlen.
  apply Csum_ext. intros i _. symmetry. apply conj_Cmul_conj.
Qed.

(** X7: in exact arithmetic, and whatever the numbers of workers and their
    orders in the two calls, [innerProd] is symmetric in its two vectors, and
    exchanging the vectors of [innerProdC] conjugates its value. *)
Theorem innerProd_symmetry (v1 v2 : list C) (nthreads nthreads' : Z)
  (sched sched' : list Z) :
  List.length v1 = List.length v2 ->
  SizeT.in_range (Z.of_nat (List.length v1)) ->
  1 <= nthreads -> Permutation sched (range 0 nthreads) ->
  1 <= nthreads' -> Permutation sched' (range 0 nthreads') ->
  exists z w,
    innerProd v1 v2 (Z.of_nat (List.length v1)) nthreads sched = Ret z
    /\ innerProd v2 v1 (Z.of_nat (List.length v2)) nthreads' sched' = Ret z
    /\ innerProdC v1 v2 (Z.of_nat (List.length v1)) nthreads sched = Ret w
    /\ innerProdC v2 v1 (Z.of_nat (List.length v2)) nthreads' sched'
       = Ret (conj w).
Proof.
  intros Hlen Hsize Hn Hperm Hn' Hperm'.
  exists (dot v1 v2), (dotC v1 v2).
  split; [now apply (innerProd_dot Tring)|].
  split.
  - rewrite (innerProd_dot Tring) by (try assumption; congruence).
    f_equal. symmetry. now apply dot_comm.
  - split; [now apply (innerProdC_dotC Tring)|].
    rewrite (innerProdC_dotC Tring) by (try assumption; congruence).
    f_equal. now apply dotC_conj.
Qed.

End ExactSymmetry.

Lemma innerProd_symmetry_witness :
  let v1 := [Complex 0 1; Complex 2 3; Complex 1 1] in
  let v2 := [Complex 0 1; Complex 1 0; Complex 5 5] in
  exists z w,
    innerProd v1 v2 (Z.of_nat (List.length v1)) 2 [1; 0] = Ret z
    /\ innerProd v2 v1 (Z.of_nat (List.length v2)) 1 [0] = Ret z
    /\ innerProdC v1 v2 (Z.of_nat (List.length v1)) 2 [1; 0] = Ret w
    /\ innerProdC v2 v1 (Z.of_nat (List.length v2)) 1 [0] = Ret (conj w).
Proof.
  apply (@innerProd_symmetry Z Z_Scalar Zth).
  - reflexivity.
  - apply in_range_small. simpl. lia.
  - lia.
  - apply perm_swap.
  - lia.
  - apply Permutation_refl.
Defined.

(** ** The overloads on vectors *)

Lemma run_threads_ext {St : Type} (worker worker' : Z -> St -> outcome St)
  (sched : list Z) :
  (forall i s, In i sched -> worker i s = worker' i s) ->
  forall s, run_threads worker sched s = run_threads worker' sched s.
Proof.
  induction sched as [|i sched IH]; intros Hworker s; [reflexivity|].
  cbn [run_threads]. rewrite Hworker by now left.
  destruct (worker' i s); try reflexivity. cbn [bind].
  apply IH. intros j t Hj. apply Hworker. now right.
Qed.

Lemma nth_error_firstn_below {A : Type} (p : list A) :
  forall (n i : nat), (i < n)%nat -> nth_error (firstn n p) i = nth_error p i.
Proof.
  induction p as [|x p IH]; intros [|n] [|i] Hi; simpl; try reflexivity; try lia.
  apply IH. lia.
Qed.

Lemma load_firstn {A : Type} (p : list A) (n : nat) (i : Z) :
  (n <= List.length p)%nat -> 0 <= i < Z.of_nat n ->
  load (firstn n p) i = load p i.
Proof.
  intros Hn Hi. unfold load.
  rewrite firstn_length_le by assumption.
  rewrite nth_error_firstn_below by lia.
  replace ((0 <=? i) && (i <? Z.of_nat n)) with true
    by (symmetry; apply andb_true_iff; rewrite Z.leb_le, Z.ltb_lt; lia).
  replace ((0 <=? i) && (i <? Z.of_nat (List.length p))) with true
    by (symmetry; apply andb_true_iff; rewrite Z.leb_le, Z.ltb_lt; lia).
  reflexivity.
Qed.

Section VectorOverloads.

Context {T : Type} {ST : Scalar T}.

Local Abbreviation C := (complex T).

(** The loop of an inner product reads [v2] only below [v1.size()]. *)
Lemma product_loop_firstn (g : C -> C -> C) (v1 v2 : list C) (l r : Z) (s : C) :
  (List.length v1 <= List.length v2)%nat ->
  0 <= l -> r <= Z.of_nat (List.length v1) ->
  for_ l r
    (fun i s => x <- load v1 i ;; y <- load v2 i ;; Ret (Cadd s (g x y))) s
  = for_ l r
      (fun i s => x <- load v1 i ;;
                  y <- load (firstn (List.length v1) v2) i ;;
                  Ret (Cadd s (g x y))) s.
Proof.
  intros Hlen Hl Hr. apply for_ext. intros j t Hj.
  now rewrite load_firstn by lia.
Qed.

(** X8: the overloads of [innerProd] and [innerProdC] on vectors take the
    size of the first vector: when the second is at least as long, its
    entries from [v1.size()] on are ignored, whatever the arithmetic of the
    scalars. *)
Theorem innerProd_vector_reads_first_size (v1 v2 : list C) (sched : list Z) :
  (List.length v1 <= List.length v2)%nat ->
  SizeT.in_range (Z.of_nat (List.length v1)) ->
  Permutation sched (range 0 2) ->
  innerProd_vector v1 v2 sched
  = innerProd_vector v1 (firstn (List.length v1) v2) sched
  /\ innerProdC_vector v1 v2 sched
     = innerProdC_vector v1 (firstn (List.length v1) v2) sched.
Proof.
  intros Hlen Hsize Hperm.
  assert (Hworker :
    forall (g : C -> C -> C) i result, In i sched ->
      (l <- load (map (boundary 2 (Z.of_nat (List.length v1))) (range 0 (2 + 1))) i ;;
       r <- load (map (boundary 2 (Z.of_nat (List.length v1))) (range 0 (2 + 1))) (i + 1) ;;
       s <- for_ l r
              (fun i s => x <- load v1 i ;; y <- load v2 i ;;
                          Ret (Cadd s (g x y))) C0 ;;
       Ret (Cadd result s))
      = (l <- load (map (boundary 2 (Z.of_nat (List.length v1))) (range 0 (2 + 1))) i ;;
         r <- load (map (boundary 2 (Z.of_nat (List.length v1))) (range 0 (2 + 1))) (i + 1) ;;
         s <- for_ l r
                (fun i s => x <- load v1 i ;;
                            y <- load (firstn (List.length v1) v2) i ;;
                            Ret (Cadd s (g x y))) C0 ;;
         Ret (Cadd result s))).
  { intros g i result Hi.
    apply (Permutation_in _ Hperm), range_In in Hi.
    destruct (worker_bounds 2 (Z.of_nat (List.length v1)) i) as [-> ->];
      [lia|lia|]. cbn [bind].
    pose proof (boundary_range 2 (Z.of_nat (List.length v1)) i).
    pose proof (boundary_range 2 (Z.of_nat (List.length v1)) (i + 1)).
    now rewrite product_loop_firstn by lia. }
  unfold innerProd_vector, innerProdC_vector, innerProd, innerProdC. split.
  - destruct (Z.of_nat (List.length v1) >? DOTU_STD_CROSSOVER).
    + unfold std_inner_product, ConstSum.
      apply (product_loop_firstn ConstMult); lia.
    + rewrite partition_closed_form by (assumption || lia). cbn [bind].
      apply run_threads_ext. intros i result Hi.
      apply (Hworker Cmul i result Hi).
  - destruct (Z.of_nat (List.length v1) >? DOTC_STD_CROSSOVER).
    + unfold std_inner_product, ConstSum.
      apply (product_loop_firstn ConstMultConj); lia.
    + rewrite partition_closed_form by (assumption || lia). cbn [bind].
      apply run_threads_ext. intros i result Hi.
      apply (Hworker (fun x y => Cmul (conj x) y) i result Hi).
Qed.

End VectorOverloads.

Lemma innerProd_vector_reads_first_size_witness :
  let v1 := [Complex 0 1; Complex 2 3] in
  let v2 := [Complex 0 1; Complex 1 0; Complex 5 5] in
  innerProd_vector v1 v2 [1; 0]
  = innerProd_vector v1 (firstn (List.length v1) v2) [1; 0]
  /\ innerProdC_vector v1 v2 [1; 0]
     = innerProdC_vector v1 (firstn (List.length v1) v2) [1; 0].
Proof.
  apply (@innerProd_vector_reads_first_size Z Z_Scalar).
  - simpl. lia.
  - apply in_range_small. simpl. lia.
  - apply perm_swap.
Defined.

(** ** Reads past the end of a vector *)

Lemma load_out {A : Type} (p : list A) (i : Z) :
  Z.of_nat (List.length p) <= i -> load p i = Undefined.
Proof.
  intros Hi. unfold load.
  destruct (Z.ltb_spec i (Z.of_nat (List.length p))); [lia|].
  now rewrite andb_false_r.
Qed.

Lemma load_cases {A : Type} (p : list A) (i : Z) :
  load p i = Undefined \/ exists x, load p i = Ret x.
Proof.
  unfold load.
  destruct ((0 <=? i) && (i <? Z.of_nat (List.length p))); [|now left].
  destruct (nth_error p (Z.to_nat i)) as [x|]; [right; now exists x|now left].
Qed.

(** A loop whose body is undefined at some index, and returns before it, is
    undefined. *)
Lemma for_count_undefined {St : Type} (body : Z -> St -> outcome St)
  (count : nat) :
  forall (lo i0 : Z) (s : St),
    lo <= i0 < lo + Z.of_nat count ->
    (forall t, body i0 t = Undefined) ->
    (forall j t, lo <= j < i0 -> exists t', body j t = Ret t') ->
    for_count body lo count s = Undefined.
Proof.
  induction count as [|count IH]; intros lo i0 s Hi0 Hfail Hbefore; [lia|].
  cbn [for_count].
  destruct (Z.eq_dec lo i0) as [->|Hneq].
  - now rewrite Hfail.
  - destruct (Hbefore lo s) as (t' & ->); [lia|]. cbn [bind].
    apply (IH (lo + 1) i0); [lia|assumption|].
    intros j t Hj. apply Hbefore. lia.
Qed.

Lemma for_undefined {St : Type} (lo hi i0 : Z) (body : Z -> St -> outcome St)
  (s : St) :
  lo <= i0 < hi ->
  (forall t, body i0 t = Undefined) ->
  (forall j t, lo <= j < i0 -> exists t', body j t = Ret t') ->
  for_ lo hi body s = Undefined.
Proof.
  intros Hi0 Hfail Hbefore. unfold for_.
  apply (for_count_undefined body _ lo i0); (assumption || lia).
Qed.

(** A loop whose body only returns or is undefined does the same. *)
Lemma for_count_returns_or_undefined {St : Type}
  (body : Z -> St -> outcome St) (count : nat) :
  (forall j t, body j t = Undefined \/ exists t', body j t = Ret t') ->
  forall lo s, for_count body lo count s = Undefined
               \/ exists s', for_count body lo count s = Ret s'.
Proof.
  intros Hbody. induction count as [|count IH]; intros lo s.
  - right. now exists s.
  - cbn [for_count]. destruct (Hbody lo s) as [->|(t' & ->)].
    + now left.
    + cbn [bind]. apply IH.
Qed.

(** Workers that only return or are undefined, one of them undefined
    whatever it starts from: the run is undefined. *)
Lemma run_threads_undefined {St : Type} (worker : Z -> St -> outcome St)
  (sched : list Z) (i0 : Z) :
  (forall i s, worker i s = Undefined \/ exists s', worker i s = Ret s') ->
  In i0 sched -> (forall s, worker i0 s = Undefined) ->
  forall s, run_threads worker sched s = Undefined.
Proof.
  intros Hworker Hin Hfail.
  induction sched as [|i sched IH]; intros s; [contradiction|].
  cbn [run_threads]. destruct (Hworker i s) as [->|(s' & Hs')].
  - reflexivity.
  - rewrite Hs'. cbn [bind]. destruct Hin as [->|Hin].
    + rewrite Hfail in Hs'. discriminate.
    + now apply IH.
Qed.

Section ShortSecondVector.

Context {T : Type} {ST : Scalar T}.

Local Abbreviation C := (complex T).

Variables (g : C -> C -> C) (v1 v2 : list C).
Hypothesis Hshort : (List.length v2 < List.length v1)%nat.

Lemma product_body_cases (j : Z) (s : C) :
  (x <- load v1 j ;; y <- load v2 j ;; Ret (Cadd s (g x y))) = Undefined
  \/ exists s', (x <- load v1 j ;; y <- load v2 j ;; Ret (Cadd s (g x y)))
                = Ret s'.
Proof.
  destruct (load_cases v1 j) as [->|(x & ->)]; cbn [bind]; [now left|].
  destruct (load_cases v2 j) as [->|(y & ->)]; cbn [bind]; [now left|].
  right. now eexists.
Qed.

(** A chunk that holds index [v2.size()] reads [v2] past its end. *)
Lemma product_loop_past_end (l r : Z) (s : C) :
  0 <= l <= Z.of_nat (List.length v2) -> Z.of_nat (List.length v2) < r ->
  for_ l r
    (fun i s => x <- load v1 i ;; y <- load v2 i ;; Ret (Cadd s (g x y))) s
  = Undefined.
Proof.
  intros Hl Hr. apply (for_undefined l r (Z.of_nat (List.length v2))).
  - lia.
  - intros t. rewrite (load_in v1 _ C0) by lia. cbn [bind].
    now rewrite load_out by lia.
  - intros j t Hj.
    rewrite (load_in v1 _ C0), (load_in v2 _ C0) by lia. cbn [bind].
    now eexists.
Qed.

Lemma threaded_past_end (nthreads : Z) (sched : list Z) :
  SizeT.in_range (Z.of_nat (List.length v1)) ->
  1 <= nthreads -> Permutation sched (range 0 nthreads) ->
  (bnd <- partition nthreads (Z.of_nat (List.length v1)) ;;
   run_threads
     (fun i result =>
        l <- load bnd i ;; r <- load bnd (i + 1) ;;
        s <- for_ l r
               (fun i s => x <- load v1 i ;; y <- load v2 i ;;
                           Ret (Cadd s (g x y))) C0 ;;
        Ret (Cadd result s))
     sched C0)
  = Undefined.
Proof.
  intros Hsize Hn Hperm.
  set (size := Z.of_nat (List.length v1)) in *.
  rewrite partition_closed_form by assumption. cbn [bind].
  destruct (boundary_cover nthreads size (Z.of_nat (List.length v2)) Hn)
    as (i0 & Hi0 & Hchunk); [unfold size; lia|].
  apply (run_threads_undefined _ sched i0).
  - intros i result.
    destruct (load_cases (map (boundary nthreads size) (range 0 (nthreads + 1))) i)
      as [->|(l & ->)]; cbn [bind]; [now left|].
    destruct (load_cases (map (boundary nthreads size) (range 0 (nthreads + 1)))
                (i + 1)) as [->|(r & ->)]; cbn [bind]; [now left|].
    destruct (for_count_returns_or_undefined
                (fun i s => x <- load v1 i ;; y <- load v2 i ;;
                            Ret (Cadd s (g x y)))
                (Z.to_nat (r - l)) product_body_cases l C0)
      as [Hu|(s' & Hs')]; unfold for_.
    + rewrite Hu. now left.
    + rewrite Hs'. right. now eexists.
  - apply (Permutation_in _ (Permutation_sym Hperm)), range_In. lia.
  - intros result.
    destruct (worker_bounds nthreads size i0 Hn Hi0) as [-> ->]. cbn [bind].
    pose proof (boundary_range nthreads size i0 Hn ltac:(unfold size; lia)).
    rewrite product_loop_past_end by lia. reflexivity.
Qed.

End ShortSecondVector.

(** X9: the overloads on vectors make no test of the second size: when the
    second vector is shorter than the first, [innerProd] and [innerProdC]
    read it past its end, in the threaded and in the sequential branch and
    whatever the order of the workers. *)
Theorem innerProd_vector_short_second_is_undefined {T : Type} {ST : Scalar T}
  (v1 v2 : list (complex T)) (sched : list Z) :
  (List.length v2 < List.length v1)%nat ->
  SizeT.in_range (Z.of_nat (List.length v1)) ->
  Permutation sched (range 0 2) ->
  innerProd_vector v1 v2 sched = Undefined
  /\ innerProdC_vector v1 v2 sched = Undefined.
Proof.
  intros Hshort Hsize Hperm.
  unfold innerProd_vector, innerProdC_vector, innerProd, innerProdC. split.
  - destruct (Z.of_nat (List.length v1) >? DOTU_STD_CROSSOVER).
    + unfold std_inner_product, ConstSum.
      apply (product_loop_past_end ConstMult v1 v2 Hshort); lia.
    + apply (threaded_past_end Cmul v1 v2 Hshort 2 sched); (assumption || lia).
  - destruct (Z.of_nat (List.length v1) >? DOTC_STD_CROSSOVER).
    + unfold std_inner_product, ConstSum.
      apply (product_loop_past_end ConstMultConj v1 v2 Hshort); lia.
    + apply (threaded_past_end (fun x y => Cmul (conj x) y) v1 v2 Hshort 2 sched);
        (assumption || lia).
Qed.

Lemma innerProd_vector_short_second_is_undefined_witness :
  let v1 := [Complex 0 1; Complex 2 3; Complex 1 1] in
  let v2 := [Complex 0 1] in
  innerProd_vector v1 v2 [0; 1] = Undefined
  /\ innerProdC_vector v1 v2 [0; 1] = Undefined.
Proof.
  apply (@innerProd_vector_short_second_is_undefined Z Z_Scalar).
  - simpl. lia.
  - apply in_range_small. simpl. lia.
  - apply Permutation_refl.
Defined.

(** ** Matrix-vector product with [transpose = true] *)

Section MatrixVectorTransposed.

Context {T : Type} {ST : Scalar T}.

Local Abbreviation C := (complex T).

Variables (mat v_in : list C) (m n : Z).
Hypothesis Hm : 0 <= m.
Hypothesis Hn : 0 <= n.
Hypothesis Hmat : Z.of_nat (List.length mat) = n * m.
Hypothesis Hv_in : Z.of_nat (List.length v_in) = n.
Hypothesis Hsize : n * m < SizeT.modulus.

Lemma transposed_row (out : list C) (r : Z) :
  Z.of_nat (List.length out) = m -> 0 <= r < m ->
  exists out',
    for_ 0 n
      (fun c v_out =>
         a <- load mat (SizeT.add (SizeT.mul c m) r) ;;
         x <- load v_in c ;;
         y <- load v_out r ;;
         store v_out r (Cadd y (Cmul a x)))
      out = Ret out'
    /\ Z.of_nat (List.length out') = m
    /\ Znth out' r C0
       = accumulate (fun c => Cmul (Znth mat (c * m + r) C0) (Znth v_in c C0))
           n (Znth out r C0)
    /\ forall r', 0 <= r' -> r' <> r -> Znth out' r' C0 = Znth out r' C0.
Proof.
  intros Hout Hr. unfold accumulate.
  apply (for_invariant
           (fun c cur =>
              Z.of_nat (List.length cur) = m
              /\ Znth cur r C0
                 = fold_left
                     (fun acc c => Cadd acc (Cmul (Znth mat (c * m + r) C0)
                                                  (Znth v_in c C0)))
                     (range 0 c) (Znth out r C0)
              /\ forall r', 0 <= r' -> r' <> r ->
                            Znth cur r' C0 = Znth out r' C0)).
  - exact Hn.
  - split; [assumption|]. split; [reflexivity|]. intros r' _ _. reflexivity.
  - intros c cur Hc (Hlen & Hrow & Hrest).
    destruct (index_small c m r n Hc Hr Hsize) as [-> Hidx].
    rewrite (load_in mat _ C0), (load_in v_in _ C0), (load_in cur _ C0) by lia.
    cbn [bind]. rewrite store_in by lia.
    eexists. split; [reflexivity|]. split; [|split].
    + now rewrite update_length.
    + rewrite Znth_update_same by lia.
      rewrite range_snoc, fold_left_app by lia. simpl. now rewrite Hrow.
    + intros r' Hr' Hneq. rewrite Znth_update_other by lia. now apply Hrest.
Qed.

Lemma transposed_chunk (out : list C) (left right : Z) :
  Z.of_nat (List.length out) = m -> 0 <= left -> right <= m ->
  exists out',
    _matrixVecProd mat v_in out m n left right true = Ret out'
    /\ Z.of_nat (List.length out') = m
    /\ forall r, 0 <= r < m ->
         Znth out' r C0
         = if (left <=? r) && (r <? right)
           then accumulate (fun c => Cmul (Znth mat (c * m + r) C0)
                                          (Znth v_in c C0))
                  n (Znth out r C0)
           else Znth out r C0.
Proof.
  intros Hout Hleft Hright. unfold _matrixVecProd.
  destruct (Z_le_gt_dec left right) as [Hle|Hgt].
  - apply (for_invariant
             (fun i cur =>
                Z.of_nat (List.length cur) = m
                /\ forall r, 0 <= r < m ->
                     Znth cur r C0
                     = if (left <=? r) && (r <? i)
                       then accumulate
                              (fun c => Cmul (Znth mat (c * m + r) C0)
                                             (Znth v_in c C0))
                              n (Znth out r C0)
                       else Znth out r C0)).
    + exact Hle.
    + split; [assumption|]. intros r Hr. index_cases.
    + intros j cur Hj (Hlen & Hrows).
      destruct (transposed_row cur j Hlen) as (cur' & -> & Hlen' & Hrow & Hrest);
        [lia|].
      exists cur'. split; [reflexivity|]. split; [assumption|].
      intros r Hr. destruct (Z.eq_dec r j) as [->|Hneq].
      * rewrite Hrow, (Hrows j) by lia. index_cases.
      * rewrite Hrest, (Hrows r) by lia. index_cases.
  - rewrite for_empty by lia. exists out. split; [reflexivity|].
    split; [assumption|]. intros r Hr. index_cases.
Qed.

(** Whatever the arithmetic of the scalars: each [v_out[r]] ends as its
    prior value with the terms [mat[c * m + r] * v_in[c]] added one after
    the other. *)
Lemma matrixVecProd_transposed_accumulate (v_out : list C) (nthreads : Z)
  (sched : list Z) :
  Z.of_nat (List.length v_out) = m -> SizeT.in_range m ->
  1 <= nthreads -> Permutation sched (range 0 nthreads) ->
  exists out',
    matrixVecProd mat v_in (Some v_out) m n nthreads true sched
    = Ret (Some out')
    /\ Z.of_nat (List.length out') = m
    /\ forall r, 0 <= r < m ->
         Znth out' r C0
         = accumulate (fun c => Cmul (Znth mat (c * m + r) C0) (Znth v_in c C0))
             n (Znth v_out r C0).
Proof.
  intros Hout Hrange Hthreads Hperm. unfold matrixVecProd.
  rewrite partition_closed_form by assumption. cbn [bind].
  destruct (workers_all C0 nthreads m m (fun r => r)
              (fun r => accumulate (fun c => Cmul (Znth mat (c * m + r) C0)
                                                  (Znth v_in c C0)) n)
              (fun cur l r => _matrixVecProd mat v_in cur m n l r true)
              Hthreads Hrange) with (out0 := v_out) (sched := sched)
    as (out' & Hrun & Hlen & Hrows); try assumption.
  - intros r Hr. exact Hr.
  - intros cur left right. apply transposed_chunk.
  - cbv beta in Hrun. rewrite Hrun. cbn [bind].
    exists out'. split; [reflexivity|]. split; assumption.
Qed.

End MatrixVectorTransposed.

Section ExactMatrixVectorTransposed.

Context {T : Type} {ST : Scalar T}.
Hypothesis Tring : ring_theory zero one add mul sub opp (@eq T).

Local Abbreviation C := (complex T).

Lemma accumulate_sum (term : Z -> C) (n : Z) (a : C) :
  accumulate term n a = Cadd a (Csum term 0 n).
Proof. unfold accumulate, Csum. apply (fold_Cadd_start Tring). Qed.

(** X10: with [transpose = true], [mat] is read as an [n * m] row-major
    matrix and its transpose is applied: in exact arithmetic every
    [v_out[r]], [r < m], ends as its prior value plus the sum over [c < n]
    of [mat[c * m + r] * v_in[c]], whatever the number of workers and their
    order. *)
Theorem matrixVecProd_transposed_accumulates (mat v_in v_out : list C)
  (m n nthreads : Z) (sched : list Z) :
  0 <= m -> 0 <= n ->
  Z.of_nat (List.length mat) = n * m ->
  Z.of_nat (List.length v_in) = n ->
  Z.of_nat (List.length v_out) = m ->
  SizeT.in_range m -> n * m < SizeT.modulus ->
  1 <= nthreads -> Permutation sched (range 0 nthreads) ->
  exists out',
    matrixVecProd mat v_in (Some v_out) m n nthreads true sched
    = Ret (Some out')
    /\ List.length out' = List.length v_out
    /\ forall r, 0 <= r < m ->
         Znth out' r C0
         = Cadd (Znth v_out r C0)
                (Csum (fun c => Cmul (Znth mat (c * m + r) C0)
                                     (Znth v_in c C0)) 0 n).
Proof.
  intros Hm Hn Hmat Hv_in Hv_out Hrange Hsize Hthreads Hperm.
  destruct (matrixVecProd_transposed_accumulate mat v_in m n)
    with (v_out := v_out) (nthreads := nthreads) (sched := sched)
    as (out' & Hrun & Hlen & Hrows); try assumption.
  exists out'. split; [exact Hrun|]. split; [lia|].
  intros r Hr. rewrite Hrows by assumption. apply accumulate_sum.
Qed.

End ExactMatrixVectorTransposed.

Lemma matrixVecProd_transposed_accumulates_witness :
  let mat := [Complex 1 0; Complex 2 0; Complex 3 0;
              Complex 4 0; Complex 5 0; Complex 0 6] in
  let v_in := [Complex 1 0; Complex 0 1] in
  let v_out := [Complex 10 0; Complex 20 0; Complex 30 0] in
  exists out',
    matrixVecProd mat v_in (Some v_out) 3 2 2 true [1; 0] = Ret (Some out')
    /\ List.length out' = List.length v_out
    /\ forall r, 0 <= r < 3 ->
         Znth out' r C0
         = Cadd (Znth v_out r C0)
                (Csum (fun c => Cmul (Znth mat (c * 3 + r) C0)
                                     (Znth v_in c C0)) 0 2).
Proof.
  apply (@matrixVecProd_transposed_accumulates Z Z_Scalar Zth);
    try reflexivity; try lia.
  - apply in_range_small. lia.
  - apply perm_swap.
Defined.

(** ** Transposition: blocks, overwriting and round trip *)

Lemma list_eq_Znth {A : Type} (d : A) (l l' : list A) :
  List.length l = List.length l' ->
  (forall j, 0 <= j < Z.of_nat (List.length l) -> Znth l j d = Znth l' j d) ->
  l = l'.
Proof.
  intros Hlen Hnth. apply (nth_ext l l' d d Hlen).
  intros i Hi. specialize (Hnth (Z.of_nat i) ltac:(lia)).
  unfold Znth in Hnth. now rewrite Nat2Z.id in Hnth.
Qed.

(** An index of an [m * n] buffer is [s * m + r] for its quotient [s] and
    remainder [r] by [m]. *)
Lemma index_cell (m n j : Z) :
  0 <= m -> 0 <= n -> 0 <= j < m * n ->
  j = (j / m) * m + j mod m /\ 0 <= j mod m < m /\ 0 <= j / m < n.
Proof.
  intros Hm0 Hn0 Hj. assert (Hm : 0 < m) by nia.
  pose proof (Z.div_mod j m ltac:(lia)).
  pose proof (Z.mod_pos_bound j m Hm).
  split; [lia|]. split; [assumption|]. split.
  - apply Z.div_pos; lia.
  - apply Z.div_lt_upper_bound; lia.
Qed.

Section TranspositionMore.

Context {T : Type} {ST : Scalar T}.

Local Abbreviation C := (complex T).

(** The entries [Transpose] leaves, for any matrix and output buffer. *)
Lemma Transpose_entries (mat mat_t : list C) (m n : Z) (fuel : nat) :
  0 <= m < 2 ^ 63 -> 0 <= n < 2 ^ 63 -> m * n < SizeT.modulus ->
  Z.of_nat (List.length mat) = m * n ->
  Z.of_nat (List.length mat_t) = m * n ->
  m + n < Z.of_nat fuel ->
  exists out,
    Transpose fuel mat mat_t m n = Ret out
    /\ Z.of_nat (List.length out) = m * n
    /\ forall r s, 0 <= r < m -> 0 <= s < n ->
         Znth out (s * m + r) C0 = Znth mat (r * n + s) C0.
Proof.
  intros Hm Hn Hsize Hmat Hmat_t Hfuel. unfold Transpose.
  destruct (CFTranspose_block_written C0 mat m n)
    with (fuel := fuel) (cur := mat_t) (m1 := 0) (m2 := m) (n1 := 0) (n2 := n)
    as (out & Hrun & Hlen & Hout); try assumption; try lia.
  exists out. split; [exact Hrun|]. split; [lia|].
  intros r s Hr Hs. rewrite Hout by nia.
  destruct (cell_index m r s Hr) as [Hmod Hdiv].
  unfold in_block. rewrite Hmod, Hdiv.
  replace ((0 <=? r) && (r <? m) && (0 <=? s) && (s <? n)) with true
    by compare_cases.
  reflexivity.
Qed.

(** X11: [CFTranspose] on the block of rows [m1, m2) and columns [n1, n2)
    writes the transposed places of the entries of the block and no other:
    any other entry of [mat_t] is left as it was. *)
Theorem CFTranspose_writes_its_block_only (mat mat_t : list C)
  (m n m1 m2 n1 n2 : Z) (fuel : nat) :
  0 <= m < 2 ^ 63 -> 0 <= n < 2 ^ 63 -> m * n < SizeT.modulus ->
  Z.of_nat (List.length mat) = m * n ->
  Z.of_nat (List.length mat_t) = m * n ->
  0 <= m1 <= m2 -> m2 <= m -> 0 <= n1 <= n2 -> n2 <= n ->
  (m2 - m1) + (n2 - n1) < Z.of_nat fuel ->
  exists out,
    CFTranspose fuel mat mat_t m n m1 m2 n1 n2 = Ret out
    /\ List.length out = List.length mat_t
    /\ forall r s, 0 <= r < m -> 0 <= s < n ->
         Znth out (s * m + r) C0
         = if (m1 <=? r) && (r <? m2) && (n1 <=? s) && (s <? n2)
           then Znth mat (r * n + s) C0
           else Znth mat_t (s * m + r) C0.
Proof.
  intros Hm Hn Hsize Hmat Hmat_t Hm1 Hm2 Hn1 Hn2 Hfuel.
  destruct (CFTranspose_block_written C0 mat m n)
    with (fuel := fuel) (cur := mat_t) (m1 := m1) (m2 := m2) (n1 := n1)
         (n2 := n2)
    as (out & Hrun & Hlen & Hout); try assumption.
  exists out. split; [exact Hrun|]. split; [exact Hlen|].
  intros r s Hr Hs. rewrite Hout by nia.
  destruct (cell_index m r s Hr) as [Hmod Hdiv].
  unfold in_block. now rewrite Hmod, Hdiv.
Qed.

(** X12: [Transpose] writes every entry of [mat_t]: what it leaves depends
    neither on what the buffer held before nor on the fuel given to the
    recursion beyond the [m + n] it needs. *)
Theorem Transpose_overwrites (mat mat_t mat_t' : list C) (m n : Z)
  (fuel fuel' : nat) :
  0 <= m < 2 ^ 63 -> 0 <= n < 2 ^ 63 -> m * n < SizeT.modulus ->
  Z.of_nat (List.length mat) = m * n ->
  Z.of_nat (List.length mat_t) = m * n ->
  Z.of_nat (List.length mat_t') = m * n ->
  m + n < Z.of_nat fuel -> m + n < Z.of_nat fuel' ->
  exists out,
    Transpose fuel mat mat_t m n = Ret out
    /\ Transpose fuel' mat mat_t' m n = Ret out.
Proof.
  intros Hm Hn Hsize Hmat Hmat_t Hmat_t' Hfuel Hfuel'.
  destruct (Transpose_entries mat mat_t m n fuel)
    as (out & Hrun & Hlen & Hout); try assumption.
  destruct (Transpose_entries mat mat_t' m n fuel')
    as (out' & Hrun' & Hlen' & Hout'); try assumption.
  exists out. split; [exact Hrun|]. rewrite Hrun'. f_equal.
  apply (list_eq_Znth C0); [lia|].
  intros j Hj. rewrite Hlen' in Hj.
  destruct (index_cell m n j ltac:(lia) ltac:(lia) Hj) as (Heq & Hr & Hs).
  rewrite Heq, Hout, Hout' by assumption. reflexivity.
Qed.

(** X13: transposing an [m * n] matrix and then the [n * m] result gives
    back the matrix, entry for entry. *)
Theorem Transpose_round_trip (mat mat_t back : list C) (m n : Z)
  (fuel : nat) :
  0 <= m < 2 ^ 63 -> 0 <= n < 2 ^ 63 -> m * n < SizeT.modulus ->
  Z.of_nat (List.length mat) = m * n ->
  Z.of_nat (List.length mat_t) = m * n ->
  Z.of_nat (List.length back) = m * n ->
  m + n < Z.of_nat fuel ->
  exists transposed,
    Transpose fuel mat mat_t m n = Ret transposed
    /\ Transpose fuel transposed back n m = Ret mat.
Proof.
  intros Hm Hn Hsize Hmat Hmat_t Hback Hfuel.
  destruct (Transpose_entries mat mat_t m n fuel)
    as (transposed & Hrun & Hlen & Hout); try assumption.
  destruct (Transpose_entries transposed back n m fuel)
    as (out & Hrun' & Hlen' & Hout'); try assumption; try lia.
  exists transposed. split; [exact Hrun|]. rewrite Hrun'. f_equal.
  apply (list_eq_Znth C0); [lia|].
  intros j Hj. rewrite Hlen' in Hj.
  destruct (index_cell n m j ltac:(lia) ltac:(lia) Hj) as (Heq & Hr & Hs).
  rewrite Heq at 1. rewrite Hout', Hout by assumption.
  f_equal. lia.
Qed.

End TranspositionMore.

Lemma CFTranspose_writes_its_block_only_witness :
  let mat := [Complex 1 0; Complex 2 0; Complex 3 0;
              Complex 4 0; Complex 5 0; Complex 6 0] in
  let mat_t := repeat (Complex 7 7) 6 in
  exists out,
    CFTranspose 4 mat mat_t 2 3 1 2 0 2 = Ret out
    /\ List.length out = List.length mat_t
    /\ forall r s, 0 <= r < 2 -> 0 <= s < 3 ->
         Znth out (s * 2 + r) C0
         = if (1 <=? r) && (r <? 2) && (0 <=? s) && (s <? 2)
           then Znth mat (r * 3 + s) C0
           else Znth mat_t (s * 2 + r) C0.
Proof.
  apply (@CFTranspose_writes_its_block_only Z Z_Scalar);
    try reflexivity; lia.
Defined.

Lemma Transpose_overwrites_witness :
  let mat := [Complex 1 0; Complex 2 0; Complex 3 0;
              Complex 4 0; Complex 5 0; Complex 6 0] in
  exists out,
    Transpose 6 mat (repeat (Complex 0 0) 6) 2 3 = Ret out
    /\ Transpose 9 mat (repeat (Complex 7 7) 6) 2 3 = Ret out.
Proof.
  apply (@Transpose_overwrites Z Z_Scalar); try reflexivity; lia.
Defined.

Lemma Transpose_round_trip_witness :
  let mat := [Complex 1 0; Complex 2 0; Complex 3 0;
              Complex 4 0; Complex 5 0; Complex 6 0] in
  exists transposed,
    Transpose 6 mat (repeat (Complex 0 0) 6) 2 3 = Ret transposed
    /\ Transpose 6 transposed (repeat (Complex 7 7) 6) 3 2 = Ret mat.
Proof.
  apply (@Transpose_round_trip Z Z_Scalar); try reflexivity; lia.
Defined.

(** ** The transposed product and [Transpose] *)

Lemma fold_left_ext_in {A B : Type} (f g : A -> B -> A) (l : list B) :
  (forall a x, In x l -> f a x = g a x) ->
  forall a, fold_left f l a = fold_left g l a.
Proof.
  induction l as [|x l IH]; intros Hfg a; [reflexivity|].
  simpl. rewrite Hfg by now left.
  apply IH. intros b y Hy. apply Hfg. now right.
Qed.

Lemma in_range_63 (z : Z) : 0 <= z < 2 ^ 63 -> SizeT.in_range z.
Proof. unfold SizeT.in_range. rewrite modulus_eq. lia. Qed.

(** X14: [matrixVecProd] with [transpose = true] leaves what the plain
    [matrixVecProd] leaves on the matrix [Transpose] makes of [mat], whatever
    the arithmetic of the scalars, the numbers of workers and their
    orders. *)
Theorem matrixVecProd_transposed_is_plain_on_Transpose
  {T : Type} {ST : Scalar T}
  (mat mat_t v_in v_out : list (complex T)) (m n nthreads nthreads' : Z)
  (sched sched' : list Z) (fuel : nat) :
  0 <= m < 2 ^ 63 -> 0 <= n < 2 ^ 63 -> n * m < SizeT.modulus ->
  Z.of_nat (List.length mat) = n * m ->
  Z.of_nat (List.length mat_t) = n * m ->
  Z.of_nat (List.length v_in) = n ->
  Z.of_nat (List.length v_out) = m ->
  n + m < Z.of_nat fuel ->
  1 <= nthreads -> Permutation sched (range 0 nthreads) ->
  1 <= nthreads' -> Permutation sched' (range 0 nthreads') ->
  exists transposed,
    Transpose fuel mat mat_t n m = Ret transposed
    /\ matrixVecProd mat v_in (Some v_out) m n nthreads true sched
       = matrixVecProd transposed v_in (Some v_out) m n nthreads' false sched'.
Proof.
  intros Hm Hn Hsize Hmat Hmat_t Hv_in Hv_out Hfuel Hthreads Hperm
    Hthreads' Hperm'.
  pose proof (in_range_63 m Hm) as Hrange.
  destruct (Transpose_entries mat mat_t n m fuel)
    as (transposed & Hrun & Hlen & Hentries); try assumption.
  exists transposed. split; [exact Hrun|].
  destruct (matrixVecProd_transposed_accumulate mat v_in m n)
    with (v_out := v_out) (nthreads := nthreads) (sched := sched)
    as (out & -> & Hout_len & Hout); try assumption; try lia.
  destruct (matrixVecProd_row_accumulate transposed v_in m n)
    with (v_out := v_out) (nthreads := nthreads') (sched := sched')
    as (out' & -> & Hout_len' & Hout'); try assumption; try lia.
  do 2 f_equal. apply (list_eq_Znth C0); [lia|].
  intros r Hr. rewrite Hout, Hout' by lia.
  unfold accumulate, row_accumulate. apply fold_left_ext_in.
  intros a c Hc. apply range_In in Hc.
  now rewrite Hentries by lia.
Qed.

Lemma matrixVecProd_transposed_is_plain_on_Transpose_witness :
  let mat := [Complex 1 0; Complex 2 0; Complex 3 0;
              Complex 4 0; Complex 5 0; Complex 0 6] in
  let v_in := [Complex 1 0; Complex 0 1] in
  let v_out := [Complex 10 0; Complex 20 0; Complex 30 0] in
  exists transposed,
    Transpose 6 mat (repeat (Complex 0 0) 6) 2 3 = Ret transposed
    /\ matrixVecProd mat v_in (Some v_out) 3 2 2 true [1; 0]
       = matrixVecProd transposed v_in (Some v_out) 3 2 1 false [0].
Proof.
  apply (@matrixVecProd_transposed_is_plain_on_Transpose Z Z_Scalar);
    try reflexivity; try lia.
  apply perm_swap.
Defined.

(** ** Matrix-matrix product: both values of [transpose] *)

Lemma matrixMatProd_transpose_true_adds_product_witness :
  let m_left := [Complex 1 0; Complex 0 1] in
  let m_right := [Complex 1 0; Complex 2 0; Complex 3 0;
                  Complex 4 0; Complex 5 0; Complex 6 0] in
  let m_out := [Complex 10 0; Complex 20 0; Complex 30 0] in
  exists out',
    matrixMatProd m_left m_right (Some m_out) 1 3 2 2 true [1; 0]
    = Ret (Some out')
    /\ List.length out' = List.length m_out
    /\ forall r c, 0 <= r < 1 -> 0 <= c < 3 ->
         Znth out' (r * 3 + c) C0
         = Cadd (Znth m_out (r * 3 + c) C0)
                (product_cell m_left m_right 3 2 r c).
Proof.
  apply (@matrixMatProd_transpose_true_adds_product Z Z_Scalar Zth);
    try reflexivity; try lia.
  - apply in_range_small. lia.
  - apply perm_swap.
Defined.

Lemma matrixMatProd_transpose_false_adds_transposed_reads_witness :
  let m_left := [Complex 1 0; Complex 0 1; Complex 2 0] in
  let m_right := [Complex 1 0; Complex 2 0; Complex 3 0;
                  Complex 4 0; Complex 5 0; Complex 6 0] in
  let m_out := [Complex 10 0; Complex 20 0] in
  exists out',
    matrixMatProd m_left m_right (Some m_out) 1 2 3 1 false [0]
    = Ret (Some out')
    /\ List.length out' = List.length m_out
    /\ forall r c, 0 <= r < 1 -> 0 <= c < 2 ->
         Znth out' (r * 2 + c) C0
         = Cadd (Znth m_out (r * 2 + c) C0)
                (Csum (fun b => Cmul (Znth m_left (r * 3 + b) C0)
                                     (Znth m_right (c * 2 + b) C0)) 0 3).
Proof.
  apply (@matrixMatProd_transpose_false_adds_transposed_reads Z Z_Scalar Zth);
    try reflexivity; try lia.
  apply in_range_small. lia.
Defined.

Section SquareRightOperand.

Context {T : Type} {ST : Scalar T}.

Local Abbreviation C := (complex T).

Variables (m_left m_right mat_t m_out : list C) (m n : Z).
Hypothesis Hm : 0 <= m < 2 ^ 63.
Hypothesis Hn : 0 <= n < 2 ^ 63.
Hypothesis Hleft : Z.of_nat (List.length m_left) = m * n.
Hypothesis Hright : Z.of_nat (List.length m_right) = n * n.
Hypothesis Hmat_t : Z.of_nat (List.length mat_t) = n * n.
Hypothesis Hout : Z.of_nat (List.length m_out) = m * n.
Hypothesis Hsize_left : m * n < SizeT.modulus.
Hypothesis Hsize_right : n * n < SizeT.modulus.

(** The cells either kernel leaves, as accumulations, for a right operand
    [right] read at [right_index b c]. *)
Lemma square_product_cells (right : list C) (right_index : Z -> Z -> Z)
  (nthreads : Z) (sched : list Z) :
  (forall b c, 0 <= b < n -> 0 <= c < n ->
               0 <= right_index b c < Z.of_nat (List.length right)) ->
  1 <= nthreads -> Permutation sched (range 0 nthreads) ->
  exists out',
    (out' <- run_threads
               (fun i out =>
                  l <- load (map (boundary nthreads m) (range 0 (nthreads + 1))) i ;;
                  r <- load (map (boundary nthreads m) (range 0 (nthreads + 1)))
                         (i + 1) ;;
                  for_ l r
                    (fun r m_out =>
                       for_ 0 n
                         (fun c m_out =>
                            for_ 0 n
                              (fun b m_out =>
                                 x <- load m_left (SizeT.add (SizeT.mul r n) b) ;;
                                 y <- load right (right_index b c) ;;
                                 z <- load m_out (SizeT.add (SizeT.mul r n) c) ;;
                                 store m_out (SizeT.add (SizeT.mul r n) c)
                                       (Cadd z (Cmul x y)))
                              m_out)
                         m_out)
                    out)
               sched m_out ;;
     Ret (Some out')) = Ret (Some out')
    /\ Z.of_nat (List.length out') = m * n
    /\ forall j, 0 <= j < m * n ->
         Znth out' j C0
         = cell_accumulate m_left right n (j / n)
             (fun b => right_index b (j mod n)) (Znth m_out j C0).
Proof.
  intros Hindex Hthreads Hperm.
  destruct (product_workers m_left right m n n)
    with (right_index := right_index) (m_out := m_out) (nthreads := nthreads)
         (sched := sched)
    as (out' & Hrun & Hlen & Hcells); try assumption; try lia.
  { now apply in_range_63. }
  exists out'. rewrite Hrun. cbn [bind]. split; [reflexivity|].
  split; [assumption|].
  intros j Hj.
  assert (Hj' : 0 <= j < n * m) by lia.
  destruct (index_cell n m j ltac:(lia) ltac:(lia) Hj') as (Heq & Hc & Hr).
  rewrite Heq at 1 3. now rewrite Hcells by assumption.
Qed.

(** X17: for a square right operand, [matrixMatProd] with
    [transpose = false] on the matrix [Transpose] makes of [m_right] leaves
    what [matrixMatProd] with [transpose = true] leaves on [m_right] itself,
    whatever the arithmetic of the scalars, the numbers of workers and their
    orders. *)
Theorem matrixMatProd_not_transposed_on_Transpose (nthreads nthreads' : Z)
  (sched sched' : list Z) (fuel : nat) :
  n + n < Z.of_nat fuel ->
  1 <= nthreads -> Permutation sched (range 0 nthreads) ->
  1 <= nthreads' -> Permutation sched' (range 0 nthreads') ->
  exists transposed,
    Transpose fuel m_right mat_t n n = Ret transposed
    /\ matrixMatProd m_left transposed (Some m_out) m n n nthreads false sched
       = matrixMatProd m_left m_right (Some m_out) m n n nthreads' true sched'.
Proof.
  intros Hfuel Hthreads Hperm Hthreads' Hperm'.
  pose proof (in_range_63 m Hm) as Hrange.
  assert (Hidx : forall a b, 0 <= a < n -> 0 <= b < n ->
                   SizeT.add (SizeT.mul a n) b = a * n + b
                   /\ 0 <= a * n + b < n * n)
    by (intros a b Ha Hb; now apply index_small).
  destruct (Transpose_entries m_right mat_t n n fuel)
    as (transposed & Hrun & Hlen & Hentries); try assumption.
  exists transposed. split; [exact Hrun|].
  unfold matrixMatProd. rewrite !partition_closed_form by (assumption || lia).
  cbn [bind]. unfold _matrixMatProd_tp, _matrixMatProd.
  destruct (square_product_cells transposed
              (fun b c => SizeT.add (SizeT.mul c n) b) nthreads sched)
    as (out & -> & Hout_len & Hcells); try assumption.
  { intros b c Hb Hc. destruct (Hidx c b Hc Hb) as [-> Hin]. lia. }
  destruct (square_product_cells m_right
              (fun b c => SizeT.add (SizeT.mul b n) c) nthreads' sched')
    as (out' & -> & Hout_len' & Hcells'); try assumption.
  { intros b c Hb Hc. destruct (Hidx b c Hb Hc) as [-> Hin]. lia. }
  do 2 f_equal. apply (list_eq_Znth C0); [lia|].
  intros j Hj. rewrite Hcells, Hcells' by lia.
  assert (Hj' : 0 <= j < n * m) by lia.
  destruct (index_cell n m j ltac:(lia) ltac:(lia) Hj') as (Heq & Hc & Hr).
  unfold cell_accumulate. apply fold_left_ext_in.
  intros a b Hb. apply range_In in Hb.
  destruct (Hidx (j mod n) b Hc Hb) as [-> _].
  destruct (Hidx b (j mod n) Hb Hc) as [-> _].
  now rewrite Hentries by lia.
Qed.

End SquareRightOperand.

Lemma matrixMatProd_not_transposed_on_Transpose_witness :
  let m_left := [Complex 1 0; Complex 0 1] in
  let m_right := [Complex 1 0; Complex 2 0; Complex 3 0; Complex 4 0] in
  let m_out := [Complex 10 0; Complex 20 0] in
  exists transposed,
    Transpose 5 m_right (repeat (Complex 0 0) 4) 2 2 = Ret transposed
    /\ matrixMatProd m_left transposed (Some m_out) 1 2 2 1 false [0]
       = matrixMatProd m_left m_right (Some m_out) 1 2 2 2 true [1; 0].
Proof.
  apply (@matrixMatProd_not_transposed_on_Transpose Z Z_Scalar);
    try reflexivity; try lia.
  apply perm_swap.
Defined.

(** ** No worker at all *)

(** X18: the number of workers is not tested: with [nthreads = 0] and an
    output buffer, [matrixVecProd] and [matrixMatProd] divide by zero in
    [partition], and so do [innerProd] and [innerProdC] up to the crossover
    size of [2^20] entries, beyond which [nthreads] is not used. *)
Theorem zero_workers_is_undefined {T : Type} {ST : Scalar T}
  (a b out : list (complex T)) (m n k data_size : Z) (transpose : bool)
  (sched : list Z) :
  data_size <= 2 ^ 20 ->
  matrixVecProd a b (Some out) m n 0 transpose sched = Undefined
  /\ matrixMatProd a b (Some out) m n k 0 transpose sched = Undefined
  /\ innerProd a b data_size 0 sched = Undefined
  /\ innerProdC a b data_size 0 sched = Undefined.
Proof.
  intros Hsize. split; [reflexivity|]. split; [reflexivity|].
  unfold innerProd, innerProdC, DOTU_STD_CROSSOVER, DOTC_STD_CROSSOVER.
  rewrite Z.gtb_ltb. change (Z.shiftl 1 20) with (2 ^ 20).
  destruct (Z.ltb_spec (2 ^ 20) data_size); [lia|].
  split; reflexivity.
Qed.

Lemma zero_workers_is_undefined_witness :
  matrixVecProd [Complex 1 0] [Complex 1 0] (Some [Complex 0 0]) 1 1 0 false []
  = Undefined
  /\ matrixMatProd [Complex 1 0] [Complex 1 0] (Some [Complex 0 0])
       1 1 1 0 false [] = Undefined
  /\ innerProd [Complex 1 0] [Complex 1 0] 1 0 [] = Undefined
  /\ innerProdC [Complex 1 0] [Complex 1 0] 1 0 [] = Undefined.
Proof.
  apply (@zero_workers_is_undefined Z Z_Scalar
           [Complex 1 0] [Complex 1 0] [Complex 0 0] 1 1 1 1 false []).
  lia.
Defined.

(** ** The matrix products do not depend on the workers *)

(** X19: whatever the arithmetic of the scalars, [matrixVecProd] leaves the
    same buffer for any two numbers of workers and any two orders in which
    they run, with either value of [transpose]: each row is accumulated by
    one worker, in the order of the columns. *)
Theorem matrixVecProd_independent_of_workers {T : Type} {ST : Scalar T}
  (mat v_in v_out : list (complex T)) (m n nthreads nthreads' : Z)
  (transpose : bool) (sched sched' : list Z) :
  0 <= m -> 0 <= n ->
  Z.of_nat (List.length mat) = m * n ->
  Z.of_nat (List.length v_in) = n ->
  Z.of_nat (List.length v_out) = m ->
  SizeT.in_range m -> m * n < SizeT.modulus ->
  1 <= nthreads -> Permutation sched (range 0 nthreads) ->
  1 <= nthreads' -> Permutation sched' (range 0 nthreads') ->
  exists out,
    matrixVecProd mat v_in (Some v_out) m n nthreads transpose sched
    = Ret (Some out)
    /\ matrixVecProd mat v_in (Some v_out) m n nthreads' transpose sched'
       = Ret (Some out).
Proof.
  intros Hm Hn Hmat Hv_in Hv_out Hrange Hsize Hthreads Hperm Hthreads' Hperm'.
  destruct transpose.
  - destruct (matrixVecProd_transposed_accumulate mat v_in m n)
      with (v_out := v_out) (nthreads := nthreads) (sched := sched)
      as (out & Hrun & Hlen & Hrows); try assumption; try lia.
    destruct (matrixVecProd_transposed_accumulate mat v_in m n)
      with (v_out := v_out) (nthreads := nthreads') (sched := sched')
      as (out' & Hrun' & Hlen' & Hrows'); try assumption; try lia.
    exists out. split; [exact Hrun|]. rewrite Hrun'. do 2 f_equal.
    apply (list_eq_Znth C0); [lia|].
    intros r Hr. now rewrite Hrows, Hrows' by lia.
  - destruct (matrixVecProd_row_accumulate mat v_in m n)
      with (v_out := v_out) (nthreads := nthreads) (sched := sched)
      as (out & Hrun & Hlen & Hrows); try assumption.
    destruct (matrixVecProd_row_accumulate mat v_in m n)
      with (v_out := v_out) (nthreads := nthreads') (sched := sched')
      as (out' & Hrun' & Hlen' & Hrows'); try assumption.
    exists out. split; [exact Hrun|]. rewrite Hrun'. do 2 f_equal.
    apply (list_eq_Znth C0); [lia|].
    intros r Hr. now rewrite Hrows, Hrows' by lia.
Qed.

Lemma matrixVecProd_independent_of_workers_witness :
  let mat := [Complex 1 0; Complex 2 0; Complex 3 0;
              Complex 4 0; Complex 5 0; Complex 0 6] in
  let v_in := [Complex 1 0; Complex 0 1] in
  let v_out := [Complex 10 0; Complex 20 0; Complex 30 0] in
  exists out,
    matrixVecProd mat v_in (Some v_out) 3 2 4 false [2; 0; 3; 1]
    = Ret (Some out)
    /\ matrixVecProd mat v_in (Some v_out) 3 2 1 false [0] = Ret (Some out).
Proof.
  apply (@matrixVecProd_independent_of_workers Z Z_Scalar);
    try reflexivity; try lia.
  - apply in_range_small. lia.
  - apply (perm_trans (l' := [0; 2; 3; 1])); [apply perm_swap|].
    apply perm_skip.
    apply (perm_trans (l' := [2; 1; 3])); [apply perm_skip, perm_swap|].
    apply perm_swap.
Defined.

Section ProductWorkers.

Context {T : Type} {ST : Scalar T}.

Local Abbreviation C := (complex T).

Variables (m_left m_right m_out : list C) (m n k : Z).
Hypothesis Hm : 0 <= m.
Hypothesis Hn : 0 <= n.
Hypothesis Hk : 0 <= k.
Hypothesis Hleft : Z.of_nat (List.length m_left) = m * k.
Hypothesis Hright : Z.of_nat (List.length m_right) = k * n.
Hypothesis Hout : Z.of_nat (List.length m_out) = m * n.
Hypothesis Hsize_left : m * k < SizeT.modulus.
Hypothesis Hsize_right : k * n < SizeT.modulus.
Hypothesis Hsize_out : m * n < SizeT.modulus.
Hypothesis Hrange : SizeT.in_range m.

(** X20: whatever the arithmetic of the scalars, [matrixMatProd] leaves the
    same buffer for any two numbers of workers and any two orders in which
    they run, with [transpose = true] and, when the reads of the other
    kernel stay inside [m_right] ([n <= k]), with [transpose = false]. *)
Theorem matrixMatProd_independent_of_workers (transpose : bool)
  (nthreads nthreads' : Z) (sched sched' : list Z) :
  transpose = true \/ n <= k ->
  1 <= nthreads -> Permutation sched (range 0 nthreads) ->
  1 <= nthreads' -> Permutation sched' (range 0 nthreads') ->
  exists out,
    matrixMatProd m_left m_right (Some m_out) m n k nthreads transpose sched
    = Ret (Some out)
    /\ matrixMatProd m_left m_right (Some m_out) m n k nthreads' transpose sched'
       = Ret (Some out).
Proof.
  intros Hflag Hthreads Hperm Hthreads' Hperm'.
  assert (Hcells :
    forall right_index,
      (forall b c, 0 <= b < k -> 0 <= c < n ->
                   0 <= right_index b c < Z.of_nat (List.length m_right)) ->
      exists out,
        (forall nthreads sched,
           1 <= nthreads -> Permutation sched (range 0 nthreads) ->
           run_threads
             (fun i out =>
                l <- load (map (boundary nthreads m) (range 0 (nthreads + 1))) i ;;
                r <- load (map (boundary nthreads m) (range 0 (nthreads + 1)))
                       (i + 1) ;;
                for_ l r
                  (fun r m_out =>
                     for_ 0 n
                       (fun c m_out =>
                          for_ 0 k
                            (fun b m_out =>
                               x <- load m_left (SizeT.add (SizeT.mul r k) b) ;;
                               y <- load m_right (right_index b c) ;;
                               z <- load m_out (SizeT.add (SizeT.mul r n) c) ;;
                               store m_out (SizeT.add (SizeT.mul r n) c)
                                     (Cadd z (Cmul x y)))
                            m_out)
                       m_out)
                  out)
             sched m_out = Ret out)).
  { intros right_index Hindex.
    destruct (product_workers m_left m_right m n k)
      with (right_index := right_index) (m_out := m_out) (nthreads := 1)
           (sched := [0])
      as (out & _ & Hlen & Hout_cells); try assumption; try lia.
    { apply Permutation_refl. }
    exists out. intros nthreads0 sched0 Hthreads0 Hperm0.
    destruct (product_workers m_left m_right m n k)
      with (right_index := right_index) (m_out := m_out) (nthreads := nthreads0)
           (sched := sched0)
      as (out0 & -> & Hlen0 & Hout0); try assumption.
    f_equal. apply (list_eq_Znth C0); [lia|].
    intros j Hj.
    assert (Hj' : 0 <= j < n * m) by lia.
    destruct (index_cell n m j ltac:(lia) ltac:(lia) Hj') as (Heq & Hc & Hr).
    rewrite Heq. now rewrite Hout_cells, Hout0 by assumption. }
  unfold matrixMatProd. rewrite !partition_closed_form by assumption.
  cbn [bind]. destruct transpose.
  - unfold _matrixMatProd.
    destruct (Hcells (fun b c => SizeT.add (SizeT.mul b n) c)) as (out & Hrun).
    { intros b c Hb Hc.
      destruct (index_small b n c k Hb Hc Hsize_right) as [-> Hin]. lia. }
    exists out. rewrite !Hrun by assumption. split; reflexivity.
  - unfold _matrixMatProd_tp.
    destruct Hflag as [Hflag|Hnk]; [discriminate|].
    destruct (Hcells (fun b c => SizeT.add (SizeT.mul c n) b)) as (out & Hrun).
    { intros b c Hb Hc. assert (0 <= c * n + b < k * n) by nia.
      rewrite mul_small by (unfold SizeT.in_range; nia).
      rewrite add_small by (unfold SizeT.in_range; lia). lia. }
    exists out. rewrite !Hrun by assumption. split; reflexivity.
Qed.

End ProductWorkers.

Lemma matrixMatProd_independent_of_workers_witness :
  let m_left := [Complex 1 0; Complex 0 1; Complex 2 0; Complex 3 0] in
  let m_right := [Complex 1 0; Complex 2 0; Complex 3 0;
                  Complex 4 0; Complex 5 0; Complex 6 0] in
  let m_out := repeat (Complex 1 1) 6 in
  exists out,
    matrixMatProd m_left m_right (Some m_out) 2 3 2 2 true [1; 0]
    = Ret (Some out)
    /\ matrixMatProd m_left m_right (Some m_out) 2 3 2 1 true [0]
       = Ret (Some out).
Proof.
  apply (@matrixMatProd_independent_of_workers Z Z_Scalar);
    try reflexivity; try lia;
    try (apply in_range_small; lia); try (now left); try apply perm_swap.
Defined.

(** ** The kernel of [transpose = false] on a wide right operand *)

Lemma store_cases {A : Type} (p : list A) (i : Z) (x : A) :
  store p i x = Undefined \/ exists p', store p i x = Ret p'.
Proof.
  unfold store.
  destruct ((0 <=? i) && (i <? Z.of_nat (List.length p)));
    [right; now eexists|now left].
Qed.

Lemma for_returns_or_undefined {St : Type} (lo hi : Z)
  (body : Z -> St -> outcome St) (s : St) :
  (forall j t, body j t = Undefined \/ exists t', body j t = Ret t') ->
  for_ lo hi body s = Undefined \/ exists s', for_ lo hi body s = Ret s'.
Proof. intros Hbody. now apply for_count_returns_or_undefined. Qed.

(** A loop whose body only returns or is undefined, and is undefined at one
    of its indices, is undefined. *)
Lemma for_count_undefined_at {St : Type} (body : Z -> St -> outcome St)
  (count : nat) :
  (forall j t, body j t = Undefined \/ exists t', body j t = Ret t') ->
  forall (lo i0 : Z) (s : St),
    lo <= i0 < lo + Z.of_nat count ->
    (forall t, body i0 t = Undefined) ->
    for_count body lo count s = Undefined.
Proof.
  intros Hbody. induction count as [|count IH]; intros lo i0 s Hi0 Hfail; [lia|].
  cbn [for_count].
  destruct (Z.eq_dec lo i0) as [->|Hneq]; [now rewrite Hfail|].
  destruct (Hbody lo s) as [->|(t' & ->)]; [reflexivity|]. cbn [bind].
  apply (IH (lo + 1) i0); [lia|assumption].
Qed.

Lemma for_undefined_at {St : Type} (lo hi i0 : Z)
  (body : Z -> St -> outcome St) (s : St) :
  (forall j t, body j t = Undefined \/ exists t', body j t = Ret t') ->
  lo <= i0 < hi ->
  (forall t, body i0 t = Undefined) ->
  for_ lo hi body s = Undefined.
Proof.
  intros Hbody Hi0 Hfail. unfold for_.
  apply (for_count_undefined_at body _ Hbody lo i0); (assumption || lia).
Qed.

Section WideRightOperand.

Context {T : Type} {ST : Scalar T}.

Local Abbreviation C := (complex T).

Variables (m_left m_right : list C) (m n k : Z).
Hypothesis Hm : 1 <= m.
Hypothesis Hk : 1 <= k.
Hypothesis Hwide : k < n.
Hypothesis Hright : Z.of_nat (List.length m_right) = k * n.
Hypothesis Hsize_right : k * n < SizeT.modulus.

Lemma tp_term_cases (r c b : Z) (out : list C) :
  (x <- load m_left (SizeT.add (SizeT.mul r k) b) ;;
   y <- load m_right (SizeT.add (SizeT.mul c n) b) ;;
   z <- load out (SizeT.add (SizeT.mul r n) c) ;;
   store out (SizeT.add (SizeT.mul r n) c) (Cadd z (Cmul x y))) = Undefined
  \/ exists out',
       (x <- load m_left (SizeT.add (SizeT.mul r k) b) ;;
        y <- load m_right (SizeT.add (SizeT.mul c n) b) ;;
        z <- load out (SizeT.add (SizeT.mul r n) c) ;;
        store out (SizeT.add (SizeT.mul r n) c) (Cadd z (Cmul x y)))
       = Ret out'.
Proof.
  destruct (load_cases m_left (SizeT.add (SizeT.mul r k) b)) as [->|(x & ->)];
    cbn [bind]; [now left|].
  destruct (load_cases m_right (SizeT.add (SizeT.mul c n) b)) as [->|(y & ->)];
    cbn [bind]; [now left|].
  destruct (load_cases out (SizeT.add (SizeT.mul r n) c)) as [->|(z & ->)];
    cbn [bind]; [now left|].
  apply store_cases.
Qed.

(** Column [k] of any row reads [m_right[k * n]], the first index past its
    end. *)
Lemma tp_column_k_undefined (r : Z) (out : list C) :
  for_ 0 k
    (fun b m_out =>
       x <- load m_left (SizeT.add (SizeT.mul r k) b) ;;
       y <- load m_right (SizeT.add (SizeT.mul k n) b) ;;
       z <- load m_out (SizeT.add (SizeT.mul r n) k) ;;
       store m_out (SizeT.add (SizeT.mul r n) k) (Cadd z (Cmul x y)))
    out = Undefined.
Proof.
  apply (for_undefined_at 0 k 0).
  - intros b t. apply tp_term_cases.
  - lia.
  - intros t.
    destruct (load_cases m_left (SizeT.add (SizeT.mul r k) 0)) as [->|(x & ->)];
      cbn [bind]; [reflexivity|].
    rewrite mul_small, add_small by (unfold SizeT.in_range; nia).
    now rewrite load_out by lia.
Qed.

Lemma tp_row_undefined (r : Z) (out : list C) :
  for_ 0 n
    (fun c m_out =>
       for_ 0 k
         (fun b m_out =>
            x <- load m_left (SizeT.add (SizeT.mul r k) b) ;;
            y <- load m_right (SizeT.add (SizeT.mul c n) b) ;;
            z <- load m_out (SizeT.add (SizeT.mul r n) c) ;;
            store m_out (SizeT.add (SizeT.mul r n) c) (Cadd z (Cmul x y)))
         m_out)
    out = Undefined.
Proof.
  apply (for_undefined_at 0 n k).
  - intros c t. apply for_returns_or_undefined.
    intros b t'. apply tp_term_cases.
  - lia.
  - intros t. apply tp_column_k_undefined.
Qed.

Lemma tp_rows_cases (left right : Z) (out : list C) :
  _matrixMatProd_tp m_left m_right out m n k left right = Undefined
  \/ exists out',
       _matrixMatProd_tp m_left m_right out m n k left right = Ret out'.
Proof.
  unfold _matrixMatProd_tp. apply for_returns_or_undefined.
  intros r t. apply for_returns_or_undefined.
  intros c t'. apply for_returns_or_undefined.
  intros b t''. apply tp_term_cases.
Qed.

Lemma tp_rows_undefined (left right : Z) (out : list C) :
  left < right ->
  _matrixMatProd_tp m_left m_right out m n k left right = Undefined.
Proof.
  intros Hrows. unfold _matrixMatProd_tp.
  apply (for_undefined_at left right left).
  - intros r t. apply for_returns_or_undefined.
    intros c t'. apply for_returns_or_undefined.
    intros b t''. apply tp_term_cases.
  - lia.
  - intros t. apply tp_row_undefined.
Qed.

(** X21: [transpose] is [false] by default, and then the kernel reads
    [m_right[c * n + b]]: when the right operand has more columns than rows
    ([n > k >= 1]) and there is a row to compute, the routine reads [m_right]
    past its end, whatever the contents of the buffers, the number of
    workers and their order. *)
Theorem matrixMatProd_not_transposed_wide_is_undefined (m_out : list C)
  (nthreads : Z) (sched : list Z) :
  SizeT.in_range m ->
  1 <= nthreads -> Permutation sched (range 0 nthreads) ->
  matrixMatProd m_left m_right (Some m_out) m n k nthreads false sched
  = Undefined.
Proof.
  intros Hrange Hthreads Hperm. unfold matrixMatProd.
  rewrite partition_closed_form by assumption. cbn [bind].
  destruct (boundary_cover nthreads m 0 Hthreads) as (i0 & Hi0 & Hchunk);
    [lia|].
  rewrite (run_threads_undefined _ sched i0); [reflexivity| | |].
  - intros i out.
    destruct (load_cases (map (boundary nthreads m) (range 0 (nthreads + 1))) i)
      as [->|(l & ->)]; cbn [bind]; [now left|].
    destruct (load_cases (map (boundary nthreads m) (range 0 (nthreads + 1)))
                (i + 1)) as [->|(r & ->)]; cbn [bind]; [now left|].
    apply tp_rows_cases.
  - apply (Permutation_in _ (Permutation_sym Hperm)), range_In. lia.
  - intros out.
    destruct (worker_bounds nthreads m i0 Hthreads Hi0) as [-> ->].
    cbn [bind]. apply tp_rows_undefined. lia.
Qed.

End WideRightOperand.

Lemma matrixMatProd_not_transposed_wide_is_undefined_witness :
  matrixMatProd [Complex 1 0; Complex 2 0]
    [Complex 1 0; Complex 2 0; Complex 3 0]
    (Some (repeat (Complex 0 0) 6)) 2 3 1 2 false [1; 0]
  = Undefined.
Proof.
  apply (@matrixMatProd_not_transposed_wide_is_undefined Z Z_Scalar);
    try reflexivity; try lia;
    try (apply in_range_small; lia); try apply perm_swap.
Defined.
